(** * Job tracking and status reconciliation of the video-generation backend

    A shallow embedding of
      - backend/src/config/database.js          (status constants, supported sets)
      - backend/src/services/replicateService.js (the Prediction Provider client)
      - backend/src/routes/videoGeneration.js    (the HTTP handlers)
    followed by the properties of the job life cycle.

    Modelling conventions.
      - The table [video_generations] is a finite map from the row id to the
        row; a row carries the columns the handlers read and write.
      - The Prediction Provider (the [replicate] client) is an interface with
        a state of its own: every call may change that state and either
        returns a prediction or raises an error.  Every call of
        [client.predictions] that reaches the provider is appended to the
        log [calls].
      - A handler is a computation in a state-and-exception monad over the
        [world]; [await] is sequencing, [throw] and [try]/[catch] are the
        monad's exceptions.
      - A Supabase statement never throws: it returns its error.  The
        environment decides which statements fail through the schedule
        [db_faults]; an empty schedule is a store that answers every
        statement.
      - Time does not pass while a request is handled: every statement of
        one request reads the same [clock].
      - The request body is typed: a field that is present has the type the
        interface gives it (string or number).  Numbers are integers ([Z]);
        strings are byte strings, so lengths and white space are those of
        ASCII text. *)

From stdpp Require Import gmap strings list fin_maps pretty sorting.
From Stdlib Require Import ZArith Lia Ascii.

Local Open Scope Z_scope.

(** ** config/database.js *)

(** [VIDEO_STATUS] *)
Inductive video_status : Type :=
  | PENDING
  | PROCESSING
  | COMPLETED
  | FAILED
  | CANCELLED.

#[global] Instance video_status_eq_dec : EqDecision video_status.
Proof. solve_decision. Defined.

Definition status_text (s : video_status) : string :=
  match s with
  | PENDING => "pending"
  | PROCESSING => "processing"
  | COMPLETED => "completed"
  | FAILED => "failed"
  | CANCELLED => "cancelled"
  end.

Definition SUPPORTED_ASPECT_RATIOS : list string :=
  ["16:9"; "9:16"; "1:1"; "4:3"; "3:4"; "21:9"; "9:21"].

Definition SUPPORTED_RESOLUTIONS : list string := ["480p"; "720p"; "1080p"].

Definition SUPPORTED_DURATIONS : list Z := [5; 10].

(** The terminal states of the life cycle. *)
Definition terminal (s : video_status) : bool :=
  match s with
  | COMPLETED | FAILED | CANCELLED => true
  | PENDING | PROCESSING => false
  end.

(** ** The Prediction Provider *)

(** A prediction as the provider returns it: the fields the backend reads. *)
Record prediction : Type := {
  pred_id : string;
  pred_status : string;
  pred_output : option string;
  pred_error : option string
}.

(** [replicateInput] of [startVideoGeneration]. *)
Record replicate_input : Type := {
  ri_prompt : string;
  ri_duration : Z;
  ri_aspect_ratio : string;
  ri_resolution : string;
  ri_fps : Z;
  ri_camera_fixed : bool;
  ri_image : option string
}.

(** What reaches the provider. *)
Inductive provider_call : Type :=
  | PredictionsCreate (model : string) (input : replicate_input)
  | PredictionsGet (prediction_id : string)
  | PredictionsCancel (prediction_id : string).

(** The client [client.predictions]: each method takes the provider's
    state and returns the next state with either the message of the error it
    raises ([inl]) or its result ([inr]). *)
Record Provider (P : Type) : Type := {
  predictions_create : P -> string -> replicate_input -> P * (string + prediction);
  predictions_get : P -> string -> P * (string + prediction);
  predictions_cancel : P -> string -> P * (string + unit)
}.

Arguments predictions_create {P} _ _ _ _.
Arguments predictions_get {P} _ _ _.
Arguments predictions_cancel {P} _ _ _.

(** ** The table video_generations *)

Record generation : Type := {
  row_id : string;
  user_id : string;
  prompt : string;
  model_type : string;
  duration : Z;
  aspect_ratio : string;
  resolution : string;
  image_url : option string;
  video_url : option string;
  thumbnail_url : option string;
  status : video_status;
  external_id : option string;
  error_message : option string;
  output_data : option prediction;
  created_at : nat;
  updated_at : nat
}.

(** The object literal of an [update]: the columns it names. *)
Record patch : Type := {
  set_status : option video_status;
  set_external_id : option string;
  set_error_message : option string;
  set_video_url : option string;
  set_output_data : option prediction
}.

(** The object literals that the handlers pass to [update]:
    [{ external_id, status: PROCESSING }], [{ status: FAILED, error_message }],
    [{ status: COMPLETED, video_url, output_data }] and [{ status: CANCELLED }]. *)
Definition accepted_patch (ext : string) : patch :=
  {| set_status := Some PROCESSING; set_external_id := Some ext;
     set_error_message := None; set_video_url := None; set_output_data := None |}.

Definition failed_patch (e : string) : patch :=
  {| set_status := Some FAILED; set_external_id := None;
     set_error_message := Some e; set_video_url := None; set_output_data := None |}.

Definition completed_patch (url : string) (payload : prediction) : patch :=
  {| set_status := Some COMPLETED; set_external_id := None;
     set_error_message := None; set_video_url := Some url;
     set_output_data := Some payload |}.

Definition cancelled_patch : patch :=
  {| set_status := Some CANCELLED; set_external_id := None;
     set_error_message := None; set_video_url := None; set_output_data := None |}.

Definition overwrite {A} (new : option A) (old : option A) : option A :=
  match new with
  | Some a => Some a
  | None => old
  end.

(** One row under an [update]: the named columns change, and the trigger
    [update_video_generations_updated_at] stamps [updated_at]. *)
Definition apply_patch (p : patch) (t : nat) (r : generation) : generation :=
  {| row_id := row_id r;
     user_id := user_id r;
     prompt := prompt r;
     model_type := model_type r;
     duration := duration r;
     aspect_ratio := aspect_ratio r;
     resolution := resolution r;
     image_url := image_url r;
     video_url := overwrite (set_video_url p) (video_url r);
     thumbnail_url := thumbnail_url r;
     status := default (status r) (set_status p);
     external_id := overwrite (set_external_id p) (external_id r);
     error_message := overwrite (set_error_message p) (error_message r);
     output_data := overwrite (set_output_data p) (output_data r);
     created_at := created_at r;
     updated_at := t |}.

(** ORDER BY created_at DESC, as a stable insertion sort. *)
Fixpoint insert_desc (r : generation) (l : list generation) : list generation :=
  match l with
  | [] => [r]
  | x :: l' =>
      if (created_at x <? created_at r)%nat then r :: x :: l'
      else x :: insert_desc r l'
  end.

Definition order_created_desc (l : list generation) : list generation :=
  foldr insert_desc [] l.

(** ** JavaScript values used by the handlers *)

(** [x || d] on an optional string: the default replaces [undefined] and
    the empty string. *)
Definition truthy (o : option string) : bool :=
  match o with
  | Some s => negb (String.eqb s "")
  | None => false
  end.

Definition or_string (o : option string) (d : string) : string :=
  match o with
  | Some s => if String.eqb s "" then d else s
  | None => d
  end.

(** [x || d] on an optional number: the default replaces [undefined] and 0. *)
Definition or_number (o : option Z) (d : Z) : Z :=
  match o with
  | Some n => if n =? 0 then d else n
  | None => d
  end.

(** White space as [trim] sees it. *)
Definition is_space (c : ascii) : bool :=
  let n := nat_of_ascii c in
  ((n =? 32) || (n =? 9) || (n =? 10) || (n =? 11) || (n =? 12) || (n =? 13))%nat.

Fixpoint ltrim (s : string) : string :=
  match s with
  | String c s' => if is_space c then ltrim s' else s
  | EmptyString => EmptyString
  end.

(** [rtrim]: a suffix that is all white space is dropped. *)
Fixpoint rtrim (s : string) : string :=
  match s with
  | String c s' =>
      match rtrim s' with
      | EmptyString => if is_space c then EmptyString else String c EmptyString
      | t => String c t
      end
  | EmptyString => EmptyString
  end.

Definition trim (s : string) : string := rtrim (ltrim s).

(** ** routes/videoGeneration.js: the request and its validation *)

(** The body of POST /generate. *)
Record request_body : Type := {
  req_prompt : option string;
  req_image : option string;
  req_duration : option Z;
  req_aspect_ratio : option string;
  req_resolution : option string
}.

(** An entry of [errors.array()]. *)
Record validation_error : Type := {
  path : string;
  msg : string
}.

Definition in_strings (s : string) (l : list string) : bool :=
  existsb (String.eqb s) l.

Definition in_numbers (n : Z) (l : list Z) : bool :=
  existsb (Z.eqb n) l.

Definition length_between (lo hi : nat) (s : string) : bool :=
  ((lo <=? String.length s) && (String.length s <=? hi))%nat.

(** [body('prompt').isString().trim().isLength({ min: 1, max: 1000 })]:
    both validators run; [trim] rewrites the field before [isLength] reads
    it; a missing field is the empty string to [trim] and [isLength]. *)
Definition check_prompt (p : option string) : list validation_error :=
  (match p with
   | Some _ => []
   | None => [ {| path := "prompt"; msg := "Invalid value" |} ]
   end)
  ++
  (if length_between 1 1000 (trim (default "" p)) then []
   else [ {| path := "prompt";
             msg := "Prompt must be between 1 and 1000 characters" |} ]).

(** [body('duration').optional().isIn(SUPPORTED_DURATIONS)] *)
Definition check_duration (d : option Z) : list validation_error :=
  match d with
  | None => []
  | Some n =>
      if in_numbers n SUPPORTED_DURATIONS then []
      else [ {| path := "duration";
                msg := "Duration must be one of: "
                       +:+ String.concat ", " (map pretty SUPPORTED_DURATIONS) |} ]
  end.

(** [body('aspect_ratio').optional().isIn(SUPPORTED_ASPECT_RATIOS)] *)
Definition check_aspect_ratio (a : option string) : list validation_error :=
  match a with
  | None => []
  | Some s =>
      if in_strings s SUPPORTED_ASPECT_RATIOS then []
      else [ {| path := "aspect_ratio";
                msg := "Aspect ratio must be one of: "
                       +:+ String.concat ", " SUPPORTED_ASPECT_RATIOS |} ]
  end.

(** [body('resolution').optional().isIn(['480p', '720p', '1080p'])] *)
Definition check_resolution (r : option string) : list validation_error :=
  match r with
  | None => []
  | Some s =>
      if in_strings s ["480p"; "720p"; "1080p"] then []
      else [ {| path := "resolution";
                msg := "Resolution must be 480p, 720p, or 1080p" |} ]
  end.

(** [body('image').optional().isString()]: the body is typed, so an image
    that is present is a string. *)
Definition check_image (i : option string) : list validation_error := [].

(** The chains of [validateVideoGeneration], in their order. *)
Definition validateVideoGeneration (b : request_body) : list validation_error :=
  check_prompt (req_prompt b) ++ check_duration (req_duration b)
  ++ check_aspect_ratio (req_aspect_ratio b) ++ check_resolution (req_resolution b)
  ++ check_image (req_image b).

(** The request body after the chains ran: the sanitizer [trim] has
    replaced the prompt. *)
Definition sanitized (b : request_body) : request_body :=
  {| req_prompt := trim <$> req_prompt b;
     req_image := req_image b;
     req_duration := req_duration b;
     req_aspect_ratio := req_aspect_ratio b;
     req_resolution := req_resolution b |}.

(** ** The numbers of GET /list *)

(** A query parameter is a string when the request carries it and the
    number of the destructuring default otherwise. *)
Inductive query_value : Type :=
  | QNumber (n : Z)
  | QString (s : string).

Definition digit_of (c : ascii) : option Z :=
  let n := nat_of_ascii c in
  if ((48 <=? n) && (n <=? 57))%nat then Some (Z.of_nat n - 48) else None.

Fixpoint digits_value (acc : Z) (s : string) : option Z :=
  match s with
  | EmptyString => Some acc
  | String c s' =>
      match digit_of c with
      | Some d => digits_value (10 * acc + d) s'
      | None => None
      end
  end.

(** [Number(s)] on a string of decimal digits; the empty string is 0; any
    other string is read as NaN ([None]). *)
Definition string_to_number (s : string) : option Z := digits_value 0 s.

Definition to_number (v : query_value) : option Z :=
  match v with
  | QNumber n => Some n
  | QString s => string_to_number s
  end.

(** [String(n)] *)
Definition number_to_string (n : Z) : string := pretty n.

(** [a - b] and [a * b]: both operands become numbers. *)
Definition js_sub (a b : query_value) : option Z :=
  x ← to_number a; y ← to_number b; Some (x - y).

Definition js_mul (a b : query_value) : option Z :=
  x ← to_number a; y ← to_number b; Some (x * y).

(** [a + b] with a number on the left: addition when [b] is a number,
    concatenation of the two texts when [b] is a string. *)
Definition js_add (a : Z) (b : query_value) : query_value :=
  match b with
  | QNumber n => QNumber (a + n)
  | QString s => QString (number_to_string a +:+ s)
  end.

(** [parseInt(v)] on a number or a string of decimal digits. *)
Definition parseInt (v : query_value) : option Z :=
  match v with
  | QNumber n => Some n
  | QString EmptyString => None
  | QString s => string_to_number s
  end.

(** [Math.ceil(a / b)] for [a >= 0] and [b > 0]. *)
Definition ceil_div (a b : Z) : Z := (a + b - 1) / b.

Record list_query : Type := {
  q_page : option string;
  q_limit : option string
}.

Record pagination : Type := {
  pg_page : option Z;
  pg_limit : option Z;
  pg_total : Z;
  pg_pages : option Z
}.

(** ** Responses *)

(** The row projection that GET /status returns. *)
Record status_view : Type := {
  sv_generation_id : string;
  sv_status : video_status;
  sv_video_url : option string;
  sv_thumbnail_url : option string;
  sv_error_message : option string;
  sv_created_at : nat;
  sv_updated_at : nat
}.

Inductive response_body : Type :=
  | ValidationFailed (details : list validation_error)
  | ErrorBody (error : string) (details : option string)
  | GenerationStarted (generation_id : string) (st : video_status)
  | StatusBody (view : status_view)
  | ListBody (generations : list generation) (pages : pagination)
  | CancelledBody (generation_id : string) (st : video_status)
  | DeletedBody (generation_id : string).

Record response : Type := {
  code : Z;
  json : response_body
}.

(** ** The world of a request and the handlers' monad *)

(** A computation ends with a value or with a thrown error message. *)
Inductive outcome (A : Type) : Type :=
  | Ok (a : A)
  | Throw (message : string).

Arguments Ok {A} a.
Arguments Throw {A} message.

Section Backend.

Context {P : Type} (replicate : Provider P).

(** What a handler can read and change.
      - [db]: the table video_generations;
      - [db_faults]: for each coming Supabase statement, whether it fails
        and with which message (an exhausted schedule means no failure);
      - [uuid_source], [uuid_drawn]: the identifiers that [uuidv4()] and
        [uuid_generate_v4()] will produce, and how many were taken;
      - [clock]: NOW();
      - [REPLICATE_API_TOKEN]: the environment variable;
      - [provider_state]: the state of the Prediction Provider;
      - [calls]: the calls made to the provider, oldest first. *)
Record world : Type := {
  db : gmap string generation;
  db_faults : list (option string);
  uuid_source : nat -> string;
  uuid_drawn : nat;
  clock : nat;
  REPLICATE_API_TOKEN : option string;
  provider_state : P;
  calls : list provider_call
}.

Definition with_db (d : gmap string generation) (w : world) : world :=
  {| db := d; db_faults := db_faults w; uuid_source := uuid_source w;
     uuid_drawn := uuid_drawn w; clock := clock w;
     REPLICATE_API_TOKEN := REPLICATE_API_TOKEN w;
     provider_state := provider_state w; calls := calls w |}.

Definition with_faults (f : list (option string)) (w : world) : world :=
  {| db := db w; db_faults := f; uuid_source := uuid_source w;
     uuid_drawn := uuid_drawn w; clock := clock w;
     REPLICATE_API_TOKEN := REPLICATE_API_TOKEN w;
     provider_state := provider_state w; calls := calls w |}.

Definition with_drawn (n : nat) (w : world) : world :=
  {| db := db w; db_faults := db_faults w; uuid_source := uuid_source w;
     uuid_drawn := n; clock := clock w;
     REPLICATE_API_TOKEN := REPLICATE_API_TOKEN w;
     provider_state := provider_state w; calls := calls w |}.

(** A call reached the provider: its state moves and the call is logged. *)
Definition with_call (p : P) (c : provider_call) (w : world) : world :=
  {| db := db w; db_faults := db_faults w; uuid_source := uuid_source w;
     uuid_drawn := uuid_drawn w; clock := clock w;
     REPLICATE_API_TOKEN := REPLICATE_API_TOKEN w;
     provider_state := p; calls := calls w ++ [c] |}.

Definition M (A : Type) : Type := world -> world * outcome A.

Definition ret {A} (a : A) : M A := fun w => (w, Ok a).

Definition throw {A} (message : string) : M A := fun w => (w, Throw message).

Definition bind {A B} (m : M A) (k : A -> M B) : M B :=
  fun w =>
    match m w with
    | (w', Ok a) => k a w'
    | (w', Throw e) => (w', Throw e)
    end.

(** [try { m } catch (error) { h error }] *)
Definition try_catch {A} (m : M A) (h : string -> M A) : M A :=
  fun w =>
    match m w with
    | (w', Ok a) => (w', Ok a)
    | (w', Throw e) => h e w'
    end.

Notation "'do' x <- m ; k" := (bind m (fun x => k))
  (at level 10, x name, m at level 100, k at level 200).

(** ** Supabase statements on video_generations *)

(** The next entry of the fault schedule. *)
Definition next_statement : M (option string) :=
  fun w =>
    match db_faults w with
    | [] => (w, Ok None)
    | f :: fs => (with_faults fs w, Ok f)
    end.

Definition uuidv4 : M string :=
  fun w => (with_drawn (S (uuid_drawn w)) w, Ok (uuid_source w (uuid_drawn w))).

(** [from('users').upsert({...}, { onConflict: 'id' })]: the table users
    is not kept; the statement succeeds or fails as the schedule says.
    Returns [error]. *)
Definition users_upsert (id : string) : M (option string) :=
  next_statement.

(** [from('video_generations').insert({...}).select().single()]: the
    store draws the primary key, refuses a key in use, fills [created_at] and
    [updated_at].  Returns [error] or [data]. *)
Definition video_generations_insert (columns : string -> nat -> generation)
  : M (string + generation) :=
  do fault <- next_statement;
  match fault with
  | Some e => ret (inl e)
  | None =>
      do key <- uuidv4;
      fun w =>
        match db w !! key with
        | Some _ =>
            (w, Ok (inl "duplicate key value violates unique constraint"))
        | None =>
            let row := columns key (clock w) in
            (with_db (<[key := row]> (db w)) w, Ok (inr row))
        end
  end.

(** [from('video_generations').select(...).eq('id', id).single()]:
    [single] reports an error when no row matches. *)
Definition video_generations_single (id : string) : M (string + generation) :=
  do fault <- next_statement;
  match fault with
  | Some e => ret (inl e)
  | None =>
      fun w =>
        match db w !! id with
        | Some row => (w, Ok (inr row))
        | None => (w, Ok (inl "JSON object requested, multiple (or no) rows returned"))
        end
  end.

(** [from('video_generations').update(p).eq('id', id)]: returns [error];
    no matching row is not an error. *)
Definition video_generations_update (p : patch) (id : string) : M (option string) :=
  do fault <- next_statement;
  match fault with
  | Some e => ret (Some e)
  | None =>
      fun w => (with_db (alter (apply_patch p (clock w)) id (db w)) w, Ok None)
  end.

(** [from('video_generations').delete().eq('id', id)] *)
Definition video_generations_delete (id : string) : M (option string) :=
  do fault <- next_statement;
  match fault with
  | Some e => ret (Some e)
  | None => fun w => (with_db (delete id (db w)) w, Ok None)
  end.

(** The rows in the order of [.order('created_at', { ascending: false })]. *)
Definition rows_newest_first (d : gmap string generation) : list generation :=
  order_created_desc (snd <$> map_to_list d).

(** [.range(from, to)]: the rows at positions [from] to [to], both included. *)
Definition slice (from to : Z) (l : list generation) : list generation :=
  take (Z.to_nat (to - from + 1)) (drop (Z.to_nat from) l).

(** [select('*', { count: 'exact' }).order(...).range(from, to)]: returns
    [error] or [data] with [count]; a bound that is not a number, a negative
    offset or an empty range is refused. *)
Definition video_generations_range (from to : option Z)
  : M (string + list generation * Z) :=
  do fault <- next_statement;
  match fault with
  | Some e => ret (inl e)
  | None =>
      fun w =>
        let all := rows_newest_first (db w) in
        match from, to with
        | Some f, Some t =>
            if (0 <=? f) && (f <=? t)
            then (w, Ok (inr (slice f t all, Z.of_nat (length all))))
            else (w, Ok (inl "Requested range not satisfiable"))
        | _, _ => (w, Ok (inl "invalid input syntax for type bigint"))
        end
  end.

(** ** services/replicateService.js *)

Definition getReplicateClient : M unit :=
  fun w =>
    if truthy (REPLICATE_API_TOKEN w) then (w, Ok ())
    else (w, Throw "REPLICATE_API_TOKEN environment variable is required").

(** [client.predictions.create({ model, input })] *)
Definition client_predictions_create (model : string) (input : replicate_input)
  : M prediction :=
  fun w =>
    let '(p, r) := predictions_create replicate (provider_state w) model input in
    let w' := with_call p (PredictionsCreate model input) w in
    match r with
    | inl e => (w', Throw e)
    | inr created => (w', Ok created)
    end.

(** [client.predictions.get(predictionId)] *)
Definition client_predictions_get (predictionId : string) : M prediction :=
  fun w =>
    let '(p, r) := predictions_get replicate (provider_state w) predictionId in
    let w' := with_call p (PredictionsGet predictionId) w in
    match r with
    | inl e => (w', Throw e)
    | inr found => (w', Ok found)
    end.

(** [client.predictions.cancel(predictionId)] *)
Definition client_predictions_cancel (predictionId : string) : M unit :=
  fun w =>
    let '(p, r) := predictions_cancel replicate (provider_state w) predictionId in
    let w' := with_call p (PredictionsCancel predictionId) w in
    match r with
    | inl e => (w', Throw e)
    | inr _ => (w', Ok ())
    end.

(** The constant [replicateInput] of [startVideoGeneration], with the
    image added when [inputData.image] is truthy; [inputData] carries the
    same five fields as the request body. *)
Definition replicateInput (inputData : request_body) : replicate_input :=
  {| ri_prompt := or_string (req_prompt inputData) "Generate a video";
     ri_duration := or_number (req_duration inputData) 5;
     ri_aspect_ratio := or_string (req_aspect_ratio inputData) "16:9";
     ri_resolution := or_string (req_resolution inputData) "720p";
     ri_fps := 24;
     ri_camera_fixed := false;
     ri_image := if truthy (req_image inputData) then req_image inputData
                 else None |}.

Definition startVideoGeneration (inputData : request_body)
  (executionId modelType : string) : M prediction :=
  try_catch
    (do _ <- getReplicateClient;
     do created <- client_predictions_create "bytedance/seedance-1-lite"
                     (replicateInput inputData);
     do _ <- video_generations_update (accepted_patch (pred_id created)) executionId;
     ret created)
    (fun error =>
       do _ <- video_generations_update (failed_patch error) executionId;
       throw error).

Definition checkGenerationStatus (predictionId : string) : M prediction :=
  try_catch
    (do _ <- getReplicateClient;
     do found <- client_predictions_get predictionId;
     ret found)
    (fun error => throw error).

Definition getGeneratedVideo (predictionId : string) : M string :=
  try_catch
    (do _ <- getReplicateClient;
     do found <- client_predictions_get predictionId;
     if String.eqb (pred_status found) "succeeded" && truthy (pred_output found)
     then ret (default "" (pred_output found))
     else if String.eqb (pred_status found) "failed"
     then throw ("Generation failed: " +:+ or_string (pred_error found) "Unknown error")
     else throw ("Video not ready. Status: " +:+ pred_status found))
    (fun error => throw error).

Definition cancelGeneration (predictionId : string) : M bool :=
  try_catch
    (do _ <- getReplicateClient;
     do _ <- client_predictions_cancel predictionId;
     ret true)
    (fun error => ret false).

(** ** routes/videoGeneration.js: the handlers *)

Definition respond (status_code : Z) (body : response_body) : M response :=
  ret {| code := status_code; json := body |}.

(** The columns of the insert of POST /generate; the store fills the key,
    the time stamps and the column defaults. *)
Definition new_generation (tempUserId : string) (body : request_body)
  (key : string) (t : nat) : generation :=
  {| row_id := key;
     user_id := tempUserId;
     prompt := default "" (req_prompt body);
     model_type := "seedance-1-lite";
     duration := or_number (req_duration body) 5;
     aspect_ratio := or_string (req_aspect_ratio body) "16:9";
     resolution := or_string (req_resolution body) "720p";
     image_url := req_image body;
     video_url := None;
     thumbnail_url := None;
     status := PENDING;
     external_id := None;
     error_message := None;
     output_data := None;
     created_at := t;
     updated_at := t |}.

(** [inputData] of POST /generate. *)
Definition input_data (body : request_body) : request_body :=
  {| req_prompt := req_prompt body;
     req_image := req_image body;
     req_duration := Some (or_number (req_duration body) 5);
     req_aspect_ratio := Some (or_string (req_aspect_ratio body) "16:9");
     req_resolution := Some (or_string (req_resolution body) "720p") |}.

(** [router.post('/generate', validateVideoGeneration, ...)] *)
Definition generate (raw : request_body) : M response :=
  try_catch
    (let errors := validateVideoGeneration raw in
     match errors with
     | _ :: _ => respond 400 (ValidationFailed errors)
     | [] =>
         let body := sanitized raw in
         do tempUserId <- uuidv4;
         do userError <- users_upsert tempUserId;
         match userError with
         | Some e =>
             respond 500 (ErrorBody "Failed to create temporary user" (Some e))
         | None =>
             do created <- video_generations_insert (new_generation tempUserId body);
             match created with
             | inl e =>
                 respond 500
                   (ErrorBody "Failed to create video generation record" (Some e))
             | inr generation =>
                 try_catch
                   (do _ <- startVideoGeneration (input_data body)
                              (row_id generation) "seedance-1-lite";
                    respond 201 (GenerationStarted (row_id generation) PROCESSING))
                   (fun generationError =>
                      do _ <- video_generations_update
                                (failed_patch generationError) (row_id generation);
                      respond 500
                        (ErrorBody "Failed to start video generation"
                           (Some generationError)))
             end
         end
     end)
    (fun error => respond 500 (ErrorBody "Internal server error" (Some error))).

(** The object that [res.json] of GET /status sends. *)
Definition view_of (g : generation) : status_view :=
  {| sv_generation_id := row_id g;
     sv_status := status g;
     sv_video_url := video_url g;
     sv_thumbnail_url := thumbnail_url g;
     sv_error_message := error_message g;
     sv_created_at := created_at g;
     sv_updated_at := updated_at g |}.

(** The assignments [generation.status = ...; generation.video_url = ...]
    on the object read from the store. *)
Definition assign (st : video_status) (url : option string) (g : generation)
  : generation :=
  {| row_id := row_id g; user_id := user_id g; prompt := prompt g;
     model_type := model_type g; duration := duration g;
     aspect_ratio := aspect_ratio g; resolution := resolution g;
     image_url := image_url g;
     video_url := overwrite url (video_url g);
     thumbnail_url := thumbnail_url g;
     status := st;
     external_id := external_id g; error_message := error_message g;
     output_data := output_data g; created_at := created_at g;
     updated_at := updated_at g |}.

(** The body of [if (generation.status === PROCESSING && generation.external_id)]:
    returns the object read from the store ([stored]) as the response
    will read it. *)
Definition reconcile (generationId : string) (stored : generation)
  (externalId : string) : M generation :=
  try_catch
    (do replicateStatus <- checkGenerationStatus externalId;
     if String.eqb (pred_status replicateStatus) "succeeded" then
       do videoUrl <- getGeneratedVideo externalId;
       do _ <- video_generations_update
                 (completed_patch videoUrl replicateStatus) generationId;
       ret (assign COMPLETED (Some videoUrl) stored)
     else if String.eqb (pred_status replicateStatus) "failed" then
       do _ <- video_generations_update
                 (failed_patch (or_string (pred_error replicateStatus) "Generation failed"))
                 generationId;
       ret (assign FAILED None stored)
     else ret stored)
    (fun statusError => ret stored).

(** [router.get('/status/:generationId', ...)] *)
Definition get_status (generationId : string) : M response :=
  try_catch
    (do fetched <- video_generations_single generationId;
     match fetched with
     | inl _ => respond 404 (ErrorBody "Video generation not found" None)
     | inr generation =>
         do current <-
           (if bool_decide (status generation = PROCESSING) && truthy (external_id generation)
            then reconcile generationId generation (default "" (external_id generation))
            else ret generation);
         respond 200 (StatusBody (view_of current))
     end)
    (fun error => respond 500 (ErrorBody "Internal server error" (Some error))).

(** [router.get('/list', ...)] *)
Definition list_generations (query : list_query) : M response :=
  try_catch
    (let page := from_option QString (QNumber 1) (q_page query) in
     let limit := from_option QString (QNumber 10) (q_limit query) in
     let offset := (x ← js_sub page (QNumber 1); y ← to_number limit; Some (x * y)) in
     let last := (o ← offset; js_sub (js_add o limit) (QNumber 1)) in
     do fetched <- video_generations_range offset last;
     match fetched with
     | inl _ => respond 500 (ErrorBody "Failed to fetch video generations" None)
     | inr (generations, count) =>
         respond 200
           (ListBody generations
              {| pg_page := parseInt page;
                 pg_limit := parseInt limit;
                 pg_total := count;
                 pg_pages :=
                   (l ← to_number limit;
                    if l =? 0 then None else Some (- ((- count) / l))) |})
     end)
    (fun error => respond 500 (ErrorBody "Internal server error" (Some error))).

(** [router.post('/cancel/:generationId', ...)] *)
Definition cancel (generationId : string) : M response :=
  try_catch
    (do fetched <- video_generations_single generationId;
     match fetched with
     | inl _ => respond 404 (ErrorBody "Video generation not found" None)
     | inr generation =>
         if decide (status generation <> PROCESSING)
         then respond 400 (ErrorBody "Can only cancel processing generations" None)
         else
           do _ <- (if truthy (external_id generation)
                    then cancelGeneration (default "" (external_id generation))
                    else ret true);
           do updateError <- video_generations_update cancelled_patch generationId;
           match updateError with
           | Some _ => respond 500 (ErrorBody "Failed to cancel generation" None)
           | None => respond 200 (CancelledBody generationId CANCELLED)
           end
     end)
    (fun error => respond 500 (ErrorBody "Internal server error" (Some error))).

(** [router.delete('/:generationId', ...)] *)
Definition delete_generation (generationId : string) : M response :=
  try_catch
    (do fetched <- video_generations_single generationId;
     match fetched with
     | inl _ => respond 404 (ErrorBody "Video generation not found" None)
     | inr _ =>
         do deleteError <- video_generations_delete generationId;
         match deleteError with
         | Some _ => respond 500 (ErrorBody "Failed to delete video generation" None)
         | None => respond 200 (DeletedBody generationId)
         end
     end)
    (fun error => respond 500 (ErrorBody "Internal server error" (Some error))).

(** ** The public operations *)

Inductive request : Type :=
  | PostGenerate (body : request_body)
  | GetStatus (generationId : string)
  | GetList (query : list_query)
  | PostCancel (generationId : string)
  | Delete (generationId : string).

Definition handle (r : request) : M response :=
  match r with
  | PostGenerate body => generate body
  | GetStatus generationId => get_status generationId
  | GetList query => list_generations query
  | PostCancel generationId => cancel generationId
  | Delete generationId => delete_generation generationId
  end.

(** ** The states the public operations can reach *)

(** The jobs that the provider accepted and that are still stored, read
    off the responses: 201 of POST /generate adds the job, 200 of DELETE
    removes it. *)
Definition accepted_after (res : outcome response) (acc : gset string) : gset string :=
  match res with
  | Ok answer =>
      match json answer with
      | GenerationStarted generation_id _ => acc ∪ {[ generation_id ]}
      | DeletedBody generation_id => acc ∖ {[ generation_id ]}
      | _ => acc
      end
  | Throw _ => acc
  end.

(** From an empty table, requests are handled one after the other;
    between two requests the environment (provider, clock, identifiers,
    token, fault schedule of the store) may change, the table may not. *)
Inductive reachable : world -> gset string -> Prop :=
  | reach_empty w : db w = ∅ -> reachable w ∅
  | reach_environment w w' acc :
      reachable w acc -> db w' = db w -> reachable w' acc
  | reach_request w acc r :
      reachable w acc ->
      reachable (handle r w).1 (accepted_after (handle r w).2 acc).

(** ** Assertions about computations *)

(** [hoare pre m post]: from a world in [pre], [m] ends in a world and
    with an outcome that [post] relates. *)
Definition hoare {A} (pre : world -> Prop) (m : M A)
  (post : outcome A -> world -> Prop) : Prop :=
  forall w, pre w -> post (m w).2 (m w).1.

(** [m] leaves the table as it is. *)
Definition stays {A} (m : M A) : Prop := forall w, db (m w).1 = db w.

(** The row [r] is stored under [id]. *)
Definition keeps (id : string) (r : generation) : world -> Prop :=
  fun w => db w !! id = Some r.

(** The table after a request, and its response. *)
Definition table_after (r : request) (w : world) : gmap string generation :=
  db (handle r w).1.

Definition response_of (r : request) (w : world) : outcome response :=
  (handle r w).2.

End Backend.

(** ** The contract in the words of the specification *)

(** The fields of a submission that the contract constrains. *)
Inductive field : Type :=
  | Prompt
  | Duration
  | AspectRatio
  | Resolution.

Definition field_name (f : field) : string :=
  match f with
  | Prompt => "prompt"
  | Duration => "duration"
  | AspectRatio => "aspect_ratio"
  | Resolution => "resolution"
  end.

(** A field is violated when: the prompt is missing or, once the white
    space around it is removed, not 1 to 1000 characters long; the duration is
    given and not 5 or 10; the aspect ratio or the resolution is given and
    outside its enumerated set. *)
Definition violated (b : request_body) (f : field) : bool :=
  match f with
  | Prompt =>
      match req_prompt b with
      | None => true
      | Some p => negb (length_between 1 1000 (trim p))
      end
  | Duration =>
      match req_duration b with
      | None => false
      | Some d => negb (bool_decide (d = 5 \/ d = 10))
      end
  | AspectRatio =>
      match req_aspect_ratio b with
      | None => false
      | Some a => negb (bool_decide (a ∈ SUPPORTED_ASPECT_RATIOS))
      end
  | Resolution =>
      match req_resolution b with
      | None => false
      | Some x => negb (bool_decide (x ∈ SUPPORTED_RESOLUTIONS))
      end
  end.

(** The life-cycle invariant of a table, given the set [acc] of the stored
    jobs that the provider accepted: a row has an external id exactly when
    its status has left pending and its job is in [acc], and every job of
    [acc] is stored. *)
Definition lifecycle (acc : gset string) (d : gmap string generation) : Prop :=
  (forall id r, d !! id = Some r ->
     (is_Some (external_id r) <-> status r <> PENDING /\ id ∈ acc))
  /\ (forall id, id ∈ acc -> is_Some (d !! id)).

(** The table during a submission, between the insert and the answer of
    the provider: the invariant holds and the new job, not yet in [acc], is
    stored and pending. *)
Definition submitting (acc : gset string) (key : string)
  (d : gmap string generation) : Prop :=
  lifecycle acc d /\ (key ∉ acc)
  /\ exists g, d !! key = Some g /\ status g = PENDING.

(** The table during a poll or a cancellation, after the read: the
    invariant holds and the job is stored and processing. *)
Definition in_flight (acc : gset string) (id : string)
  (d : gmap string generation) : Prop :=
  lifecycle acc d /\ exists r, d !! id = Some r /\ status r = PROCESSING.

(** The normalized request of a submission: the submitted values with the
    defaults 5, "16:9" and "720p" for what was omitted, 24 frames per second,
    a camera that is not fixed, and the image reference when one was given
    (a non-empty string). *)
Definition normalized_request (b : request_body) : replicate_input :=
  {| ri_prompt := trim (default "" (req_prompt b));
     ri_duration := default 5 (req_duration b);
     ri_aspect_ratio := default "16:9" (req_aspect_ratio b);
     ri_resolution := default "720p" (req_resolution b);
     ri_fps := 24;
     ri_camera_fixed := false;
     ri_image := match req_image b with
                 | Some "" => None
                 | other => other
                 end |}.

(** ** A scripted provider and sample worlds, for running the handlers *)

(** The provider's answers, fixed in advance: one for [create], one for
    [cancel], and a queue for [get] (when the queue is empty [get] raises a
    network error). *)
Record script : Type := {
  on_create : string + prediction;
  on_get : list (string + prediction);
  on_cancel : string + unit
}.

Definition scripted : Provider script :=
  {| predictions_create := fun s _ _ => (s, on_create s);
     predictions_get := fun s _ =>
       match on_get s with
       | [] => (s, inl "fetch failed")
       | r :: rest =>
           ({| on_create := on_create s; on_get := rest; on_cancel := on_cancel s |}, r)
       end;
     predictions_cancel := fun s _ => (s, on_cancel s) |}.

Definition sample_uuid (n : nat) : string := "job-" +:+ pretty n.

(** A world with the given table and provider script, a store without
    faults and the API token set. *)
Definition sample_world (d : gmap string generation) (s : script) : world (P := script) :=
  {| db := d; db_faults := []; uuid_source := sample_uuid; uuid_drawn := 0;
     clock := 7%nat; REPLICATE_API_TOKEN := Some "r8_token";
     provider_state := s; calls := [] |}.

Definition starting (id : string) : prediction :=
  {| pred_id := id; pred_status := "starting"; pred_output := None;
     pred_error := None |}.

Definition succeeded (id url : string) : prediction :=
  {| pred_id := id; pred_status := "succeeded"; pred_output := Some url;
     pred_error := None |}.

(** A provider that accepts a submission as prediction "p-1" and then
    answers [get] from the given queue. *)
Definition accepting (gets : list (string + prediction)) : script :=
  {| on_create := inr (starting "p-1"); on_get := gets; on_cancel := inr () |}.

(** A provider whose [create] raises. *)
Definition rejecting : script :=
  {| on_create := inl "Request to https://api.replicate.com/v1/predictions failed with status 402";
     on_get := []; on_cancel := inl "fetch failed" |}.

Definition sample_body : request_body :=
  {| req_prompt := Some "A cat in the rain"; req_image := None;
     req_duration := Some 10; req_aspect_ratio := Some "9:16";
     req_resolution := Some "1080p" |}.

(** A row of the table in a given status. *)
Definition sample_row (id : string) (st : video_status) (ext : option string)
  (t : nat) : generation :=
  {| row_id := id; user_id := "u-1"; prompt := "A cat in the rain";
     model_type := "seedance-1-lite"; duration := 5; aspect_ratio := "16:9";
     resolution := "720p"; image_url := None; video_url := None;
     thumbnail_url := None; status := st; external_id := ext;
     error_message := None; output_data := None; created_at := t;
     updated_at := t |}.

(** A table with one job in flight. *)
Definition processing_job : gmap string generation :=
  {[ "j" := sample_row "j" PROCESSING (Some "p-1") 3 ]}.

(** A prompt of 1002 characters: 1000 letters between two spaces. *)
Fixpoint letters (n : nat) : string :=
  match n with
  | O => EmptyString
  | S n' => String "a" (letters n')
  end.

Definition padded_prompt : string := " " +:+ letters 1000 +:+ " ".

(** Twelve finished jobs, created at times 0 to 11. *)
Definition twelve_rows : gmap string generation :=
  list_to_map
    ((fun n => (sample_uuid n, sample_row (sample_uuid n) COMPLETED (Some "p") n))
       <$> seq 0 12).

(** ** services/replicateService.js: the helpers and the account calls *)

(** [ratioMap] of [mapAspectRatioToReplicate]. *)
Definition ratioMap : list (string * string) :=
  [("16:9", "16:9"); ("9:16", "9:16"); ("1:1", "1:1"); ("4:3", "4:3");
   ("3:4", "3:4"); ("21:9", "21:9"); ("9:21", "9:21")].

(** The property names that an object literal inherits from
    [Object.prototype]; each of them is a function or an object, so it is
    truthy. *)
Definition Object_prototype : list string :=
  ["constructor"; "__defineGetter__"; "__defineSetter__"; "hasOwnProperty";
   "__lookupGetter__"; "__lookupSetter__"; "isPrototypeOf";
   "propertyIsEnumerable"; "toString"; "valueOf"; "__proto__"; "toLocaleString"].

(** What [ratioMap[customRatio] || '16:9'] evaluates to: a ratio, or the
    inherited property of that name. *)
Inductive mapped_ratio : Type :=
  | Ratio (ratio : string)
  | InheritedProperty (name : string).

Fixpoint own_property (key : string) (object : list (string * string))
  : option string :=
  match object with
  | [] => None
  | (k, v) :: rest => if String.eqb k key then Some v else own_property key rest
  end.

Definition mapAspectRatioToReplicate (customRatio : string) : mapped_ratio :=
  match own_property customRatio ratioMap with
  | Some ratio => if String.eqb ratio "" then Ratio "16:9" else Ratio ratio
  | None =>
      if in_strings customRatio Object_prototype then InheritedProperty customRatio
      else Ratio "16:9"
  end.

(** [numFrames <= 16 ? 5 : 10], on a whole number of frames. *)
Definition mapFramesToDuration (numFrames : Z) : Z :=
  if numFrames <=? 16 then 5 else 10.

(** An entry of [client.models.list()]. *)
Record model_info : Type := {
  model_owner : string;
  model_name : string;
  model_key : string
}.

(** The other methods of the client that the service calls:
    [client.models.list()], [client.accounts.get()] and [client.user.get()].
    A method that the SDK does not have raises a TypeError, and so does
    [models.find] on an answer that is not an array: errors like any other
    here. *)
Record Catalog (P : Type) : Type := {
  models_list : P -> P * (string + list model_info);
  accounts_get : P -> P * (string + string);
  user_get : P -> P * (string + string)
}.

Arguments models_list {P} _ _.
Arguments accounts_get {P} _ _.
Arguments user_get {P} _ _.

(** The object that [checkAccount] returns. *)
Inductive account_report : Type :=
  | ByAccountsGet (account : string)
  | ByUserGet (user : string)
  | NotAvailable
  | AccountError (error : string).

(** Its field [success]. *)
Definition success (r : account_report) : bool :=
  match r with
  | ByAccountsGet _ | ByUserGet _ | NotAvailable => true
  | AccountError _ => false
  end.

(** The response of GET /credits. *)
Inductive credits_body : Type :=
  | Credits (report : account_report)
  | CreditsFailed (error message : string).

Section Account.

Context {P : Type} (catalog : Catalog P).

Local Abbreviation M := (M (P := P)).
Local Abbreviation world := (world (P := P)).

Notation "'do' x <- m ; k" := (bind m (fun x => k))
  (at level 10, x name, m at level 100, k at level 200).

(** A call of these methods moves the provider's state; the log [calls]
    records the calls of [client.predictions] only. *)
Definition with_provider_state (p : P) (w : world) : world :=
  {| db := db w; db_faults := db_faults w; uuid_source := uuid_source w;
     uuid_drawn := uuid_drawn w; clock := clock w;
     REPLICATE_API_TOKEN := REPLICATE_API_TOKEN w;
     provider_state := p; calls := calls w |}.

Definition client_call {A} (method : P -> P * (string + A)) : M A :=
  fun w =>
    let '(p, r) := method (provider_state w) in
    match r with
    | inl e => (with_provider_state p w, Throw e)
    | inr a => (with_provider_state p w, Ok a)
    end.

(** [models.find(model => model.owner === 'bytedance' && model.name === 'seedance-1-lite')] *)
Definition find_seedance (models : list model_info) : option model_info :=
  find (fun m => String.eqb (model_owner m) "bytedance"
                 && String.eqb (model_name m) "seedance-1-lite") models.

Definition testConnection : M bool :=
  try_catch
    (do _ <- getReplicateClient;
     try_catch
       (do models <- client_call (models_list catalog);
        let seedanceModel := find_seedance models in
        ret true)
       (fun apiError => ret true))
    (fun error => ret false).

Definition checkAccount : M account_report :=
  try_catch
    (do _ <- getReplicateClient;
     try_catch
       (do account <- client_call (accounts_get catalog);
        ret (ByAccountsGet account))
       (fun accountError =>
          try_catch
            (do user <- client_call (user_get catalog);
             ret (ByUserGet user))
            (fun userError => ret NotAvailable)))
    (fun error => ret (AccountError error)).

(** [router.get('/credits', ...)] *)
Definition get_credits : M (Z * credits_body) :=
  try_catch
    (do credits <- checkAccount;
     ret (200, Credits credits))
    (fun error => ret (500, CreditsFailed "Failed to check credits" error)).

End Account.

(** A catalog whose three methods answer as given. *)
Definition fixed_catalog (models : string + list model_info)
  (account user : string + string) : Catalog script :=
  {| models_list := fun s => (s, models);
     accounts_get := fun s => (s, account);
     user_get := fun s => (s, user) |}.

(** ** The columns of a submission *)

(** Two rows agree on the columns that a submission fills: key, user,
    prompt, model, duration, aspect ratio, resolution, image, thumbnail and
    creation time. *)
Definition same_submission (r r' : generation) : Prop :=
  row_id r' = row_id r /\ user_id r' = user_id r /\ prompt r' = prompt r
  /\ model_type r' = model_type r /\ duration r' = duration r
  /\ aspect_ratio r' = aspect_ratio r /\ resolution r' = resolution r
  /\ image_url r' = image_url r /\ thumbnail_url r' = thumbnail_url r
  /\ created_at r' = created_at r.

(** ** The order of a listing *)

(** [a] was created no earlier than [b]. *)
Definition newer_or_same (a b : generation) : Prop :=
  (created_at b <= created_at a)%nat.

(** ** What a request may answer and may ask of the provider *)

(** The status codes of each route. *)
Definition route_codes (q : request) : list Z :=
  match q with
  | PostGenerate _ => [201; 400; 500]
  | GetStatus _ => [200; 404; 500]
  | GetList _ => [200; 500]
  | PostCancel _ => [200; 400; 404; 500]
  | Delete _ => [200; 404; 500]
  end.

(** The calls of [client.predictions] that each route makes: a submission
    creates a prediction of the fixed model from its own input, a poll gets,
    a cancellation cancels, the other routes make none. *)
Definition call_kind (q : request) (c : provider_call) : Prop :=
  match q, c with
  | PostGenerate b, PredictionsCreate model input =>
      model = "bytedance/seedance-1-lite"
      /\ input = replicateInput (input_data (sanitized b))
  | GetStatus _, PredictionsGet _ => True
  | PostCancel _, PredictionsCancel _ => True
  | _, _ => False
  end.

(** How many of them at most. *)
Definition call_budget (q : request) : nat :=
  match q with
  | PostGenerate _ => 1
  | GetStatus _ => 2
  | PostCancel _ => 1
  | GetList _ | Delete _ => 0
  end.

Section Accounting.

Context {P : Type}.

Local Abbreviation M := (M (P := P)).
Local Abbreviation world := (world (P := P)).

(** The outcome is a response with one of the codes [L], or a throw. *)
Definition answers (L : list Z) : outcome response -> world -> Prop :=
  fun o _ =>
    match o with
    | Ok answer => code answer ∈ L
    | Throw _ => True
    end.

(** [m] adds at most [n] calls to the log, all of kind [K], and leaves the
    API token as it is. *)
Definition chatter {A} (K : provider_call -> Prop) (n : nat) (m : M A) : Prop :=
  forall w,
    REPLICATE_API_TOKEN (m w).1 = REPLICATE_API_TOKEN w
    /\ exists new,
         calls (m w).1 = calls w ++ new /\ Forall K new /\ (length new <= n)%nat.

(** [m] leaves log, token and provider alone. *)
Definition silent {A} (m : M A) : Prop :=
  forall w, calls (m w).1 = calls w
            /\ REPLICATE_API_TOKEN (m w).1 = REPLICATE_API_TOKEN w
            /\ provider_state (m w).1 = provider_state w.

(** Moreover, without the API token [m] leaves the provider alone. *)
Definition traffic {A} (K : provider_call -> Prop) (n : nat) (m : M A) : Prop :=
  chatter K n m
  /\ forall w, truthy (REPLICATE_API_TOKEN w) = false ->
       calls (m w).1 = calls w /\ provider_state (m w).1 = provider_state w.

End Accounting.


(** ** What a request does to the table *)

(** The row that a valid submission [b] leaves under [key]: the inserted
    columns, possibly with the provider's id or with the error of the start. *)
Definition born (b : request_body) (key : string) (g' : generation) : Prop :=
  exists user t,
    let g := new_generation user (sanitized b) key t in
    g' = g
    \/ (exists ext t', g' = apply_patch (accepted_patch ext) t' g)
    \/ (exists e t', g' = apply_patch (failed_patch e) t' g).

(** The row [r'] that a poll leaves in place of [r]: a processing row
    with an external id is completed with a non-empty media reference and the
    provider's payload, or failed with a non-empty message. *)
Definition polled (r r' : generation) : Prop :=
  status r = PROCESSING /\ truthy (external_id r) = true
  /\ exists t,
       (exists url payload,
          url <> "" /\ pred_status payload = "succeeded"
          /\ r' = apply_patch (completed_patch url payload) t r)
       \/ (exists e, e <> "" /\ r' = apply_patch (failed_patch e) t r).

(** The row that a cancellation leaves in place of a processing row. *)
Definition cancelled (r r' : generation) : Prop :=
  status r = PROCESSING /\ exists t, r' = apply_patch cancelled_patch t r.

(** The table [d'] that the request [q] may leave from the table [d]. *)
Definition table_change (q : request) (d d' : gmap string generation) : Prop :=
  d' = d
  \/ match q with
     | PostGenerate b =>
         validateVideoGeneration b = []
         /\ exists key g, d !! key = None /\ born b key g /\ d' = <[key := g]> d
     | GetStatus id =>
         exists r r', d !! id = Some r /\ polled r r' /\ d' = <[id := r']> d
     | GetList _ => False
     | PostCancel id =>
         exists r r', d !! id = Some r /\ cancelled r r' /\ d' = <[id := r']> d
     | Delete id => is_Some (d !! id) /\ d' = delete id d
     end.

(** ** What the stored rows look like *)

(** A row holds a validated submission under its own key. *)
Definition valid_submission (id : string) (r : generation) : Prop :=
  row_id r = id /\ model_type r = "seedance-1-lite" /\ thumbnail_url r = None
  /\ trim (prompt r) = prompt r
  /\ (1 <= String.length (prompt r) <= 1000)%nat
  /\ duration r ∈ SUPPORTED_DURATIONS
  /\ aspect_ratio r ∈ SUPPORTED_ASPECT_RATIOS
  /\ resolution r ∈ SUPPORTED_RESOLUTIONS.

(** The result columns of a row agree with its status. *)
Definition settled_results (r : generation) : Prop :=
  (status r = COMPLETED <-> is_Some (video_url r))
  /\ (status r = COMPLETED <-> is_Some (output_data r))
  /\ (status r = FAILED <-> is_Some (error_message r))
  /\ video_url r <> Some ""
  /\ (forall payload, output_data r = Some payload -> pred_status payload = "succeeded")
  /\ (status r = COMPLETED -> truthy (external_id r) = true).

(** ** More fixtures *)

(** A prediction that the provider reports as failed. *)
Definition failed_prediction (id e : string) : prediction :=
  {| pred_id := id; pred_status := "failed"; pred_output := None;
     pred_error := Some e |}.

(** The world of [sample_world] with REPLICATE_API_TOKEN not set. *)
Definition tokenless_world (d : gmap string generation) (s : script)
  : world (P := script) :=
  {| db := d; db_faults := []; uuid_source := sample_uuid; uuid_drawn := 0;
     clock := 7%nat; REPLICATE_API_TOKEN := None;
     provider_state := s; calls := [] |}.
(** * Properties *)

(** ** The definitions on small inputs *)

Example trim_both_sides : trim "  a cat  " = "a cat".
Proof. reflexivity. Qed.

Example trim_keeps_inner_space : trim "a  b" = "a  b".
Proof. reflexivity. Qed.

Example trim_blank : trim "   " = "".
Proof. reflexivity. Qed.

Example sample_body_is_valid : validateVideoGeneration sample_body = [].
Proof. reflexivity. Qed.

Example missing_prompt_two_errors :
  path <$> validateVideoGeneration
             {| req_prompt := None; req_image := None; req_duration := Some 7;
                req_aspect_ratio := None; req_resolution := Some "4k" |}
  = ["prompt"; "prompt"; "duration"; "resolution"].
Proof. reflexivity. Qed.

Example duration_message :
  msg <$> check_duration (Some 7) = ["Duration must be one of: 5, 10"].
Proof. reflexivity. Qed.

Example string_plus_number :
  js_add 5 (QString "5") = QString "55" /\ js_add 5 (QNumber 10) = QNumber 15.
Proof. split; reflexivity. Qed.

Example last_position_with_default_limit :
  js_sub (js_add 10 (QNumber 10)) (QNumber 1) = Some 19.
Proof. reflexivity. Qed.

Example newest_first :
  created_at <$> rows_newest_first twelve_rows
  = [11; 10; 9; 8; 7; 6; 5; 4; 3; 2; 1; 0]%nat.
Proof. vm_compute. reflexivity. Qed.

(** GET /list?page=2 without a limit: the default limit is a number and
    the page is the rows at positions 10 and 11. *)
Example second_page_default_limit :
  exists pages,
    (list_generations {| q_page := Some "2"; q_limit := None |}
       (sample_world twelve_rows (accepting []))).2
    = Ok {| code := 200;
            json := ListBody (slice 10 19 (rows_newest_first twelve_rows)) pages |}
    /\ created_at <$> slice 10 19 (rows_newest_first twelve_rows) = [1; 0]%nat.
Proof. eexists. split; vm_compute; reflexivity. Qed.

Section Properties.

Context {P : Type} (replicate : Provider P).

Implicit Types (w : world (P := P)) (r g : generation) (id : string).

Local Abbreviation M := (M (P := P)).
Local Abbreviation stays := (stays (P := P)).
Local Abbreviation hoare := (hoare (P := P)).
Local Abbreviation keeps := (keeps (P := P)).

(** ** Running the statements of a store that answers *)

Ltac unfold_monad :=
  unfold respond, users_upsert, bind, ret, throw, try_catch, next_statement, uuidv4.

Lemma single_found w id r :
  db_faults w = [] -> db w !! id = Some r ->
  video_generations_single id w = (w, Ok (inr r)).
Proof.
  intros Hf Hr. unfold video_generations_single. unfold_monad.
  rewrite Hf, Hr. reflexivity.
Qed.

Lemma single_missing w id :
  db_faults w = [] -> db w !! id = None ->
  exists e, video_generations_single id w = (w, Ok (inl e)).
Proof.
  intros Hf Hr. unfold video_generations_single. unfold_monad.
  rewrite Hf, Hr. eauto.
Qed.

(** ** A Hoare logic for the handlers' monad *)

Lemma hoare_ret {A} (pre : world (P := P) -> Prop) (a : A) post :
  (forall w, pre w -> post (Ok a) w) -> hoare pre (ret a) post.
Proof. intros H w Hw. apply H, Hw. Qed.

Lemma hoare_throw {A} (pre : world (P := P) -> Prop) e (post : outcome A -> _) :
  (forall w, pre w -> post (Throw e) w) -> hoare pre (throw e) post.
Proof. intros H w Hw. apply H, Hw. Qed.

Lemma hoare_bind {A B} pre (m : M A) (k : A -> M B) mid post :
  hoare pre m mid ->
  (forall a, hoare (mid (Ok a)) (k a) post) ->
  (forall e w, mid (Throw e) w -> post (Throw e) w) ->
  hoare pre (bind m k) post.
Proof.
  intros Hm Hk He w Hw. specialize (Hm w Hw). unfold bind.
  destruct (m w) as [w' [a | e]]; simpl in *.
  - apply Hk, Hm.
  - apply He, Hm.
Qed.

Lemma hoare_try_catch {A} pre (m : M A) (h : string -> M A) mid post :
  hoare pre m mid ->
  (forall a w, mid (Ok a) w -> post (Ok a) w) ->
  (forall e, hoare (mid (Throw e)) (h e) post) ->
  hoare pre (try_catch m h) post.
Proof.
  intros Hm Ha Hh w Hw. specialize (Hm w Hw). unfold try_catch.
  destruct (m w) as [w' [a | e]]; simpl in *.
  - apply Ha, Hm.
  - apply Hh, Hm.
Qed.

Lemma hoare_weaken {A} (pre pre' : world (P := P) -> Prop) (m : M A) (post post' : outcome A -> _) :
  hoare pre' m post' ->
  (forall w, pre w -> pre' w) ->
  (forall o w, post' o w -> post o w) ->
  hoare pre m post.
Proof. intros Hm Hp Hq w Hw. apply Hq, Hm, Hp, Hw. Qed.

(** A fact that the precondition implies may be used to choose the proof. *)
Lemma hoare_exploit {A} (pre : world (P := P) -> Prop) (m : M A) post (Q : Prop) :
  (forall w, pre w -> Q) -> (Q -> hoare pre m post) -> hoare pre m post.
Proof. intros HQ Hm w Hw. exact (Hm (HQ w Hw) w Hw). Qed.

(** ** Computations that leave the table alone *)

Lemma stays_ret {A} (a : A) : stays (ret a).
Proof. intro w. reflexivity. Qed.

Lemma stays_throw {A} e : stays (throw (A := A) e).
Proof. intro w. reflexivity. Qed.

Lemma stays_bind {A B} (m : M A) (k : A -> M B) :
  stays m -> (forall a, stays (k a)) -> stays (bind m k).
Proof.
  intros Hm Hk w. unfold bind. specialize (Hm w).
  destruct (m w) as [w' [a | e]]; simpl in *; [rewrite Hk|]; done.
Qed.

Lemma stays_try_catch {A} (m : M A) (h : string -> M A) :
  stays m -> (forall e, stays (h e)) -> stays (try_catch m h).
Proof.
  intros Hm Hh w. unfold try_catch. specialize (Hm w).
  destruct (m w) as [w' [a | e]]; simpl in *; [|rewrite Hh]; done.
Qed.

Lemma stays_next_statement : stays next_statement.
Proof. intro w. unfold next_statement. destruct (db_faults w); reflexivity. Qed.

Lemma stays_uuidv4 : stays uuidv4.
Proof. intro w. reflexivity. Qed.

Lemma stays_getReplicateClient : stays getReplicateClient.
Proof. intro w. unfold getReplicateClient. destruct (truthy _); reflexivity. Qed.

Lemma stays_create model input : stays (client_predictions_create replicate model input).
Proof.
  intro w. unfold client_predictions_create.
  destruct (predictions_create _ _ _ _) as [p [e | x]]; reflexivity.
Qed.

Lemma stays_get ext : stays (client_predictions_get replicate ext).
Proof.
  intro w. unfold client_predictions_get.
  destruct (predictions_get _ _ _) as [p [e | x]]; reflexivity.
Qed.

Lemma stays_cancel ext : stays (client_predictions_cancel replicate ext).
Proof.
  intro w. unfold client_predictions_cancel.
  destruct (predictions_cancel _ _ _) as [p [e | x]]; reflexivity.
Qed.

Lemma stays_checkGenerationStatus ext : stays (checkGenerationStatus replicate ext).
Proof.
  apply stays_try_catch; [|intro; apply stays_throw].
  apply stays_bind; [apply stays_getReplicateClient|intros _].
  apply stays_bind; [apply stays_get|intro; apply stays_ret].
Qed.

Lemma stays_getGeneratedVideo ext : stays (getGeneratedVideo replicate ext).
Proof.
  apply stays_try_catch; [|intro; apply stays_throw].
  apply stays_bind; [apply stays_getReplicateClient|intros _].
  apply stays_bind; [apply stays_get|intro found].
  repeat case_match; first [apply stays_ret | apply stays_throw].
Qed.

Lemma stays_cancelGeneration ext : stays (cancelGeneration replicate ext).
Proof.
  apply stays_try_catch; [|intro; apply stays_ret].
  apply stays_bind; [apply stays_getReplicateClient|intros _].
  apply stays_bind; [apply stays_cancel|intro; apply stays_ret].
Qed.

(** What stays true of the table while it is left alone. *)
Lemma hoare_stays {A} (m : M A) (Q : gmap string generation -> Prop) :
  stays m -> hoare (fun w => Q (db w)) m (fun _ w => Q (db w)).
Proof. intros Hm w Hw. rewrite Hm. exact Hw. Qed.

(** ** Statements and the table *)

(** A read changes nothing and returns what is stored. *)
Lemma table_single id (Q : gmap string generation -> Prop) :
  hoare (fun w => Q (db w)) (video_generations_single id)
    (fun o w => Q (db w) /\ forall g, o = Ok (inr g) -> db w !! id = Some g).
Proof.
  intros [d f us ud c tok ps cs] Hw.
  unfold video_generations_single. unfold_monad. simpl in *.
  destruct f as [|[e|] fs]; simpl; try (split; [done | intros g' [=]]).
  all: destruct (d !! id) eqn:Hk; simpl.
  all: split; [done | intros g' [=]; congruence].
Qed.

(** An update is applied or, when the store fails, is not. *)
Lemma table_update p id (Q Q' : gmap string generation -> Prop) :
  (forall d, Q d -> Q' d) ->
  (forall d t, Q d -> Q' (alter (apply_patch p t) id d)) ->
  hoare (fun w => Q (db w)) (video_generations_update p id) (fun _ w => Q' (db w)).
Proof.
  intros Hskip Hdone [d f us ud c tok ps cs] Hw.
  unfold video_generations_update. unfold_monad. simpl in *.
  destruct f as [|[e|] fs]; simpl; auto.
Qed.

(** The same, with the fact that an update does not throw. *)
Lemma table_update_returns p id (Q Q' : gmap string generation -> Prop) :
  (forall d, Q d -> Q' d) ->
  (forall d t, Q d -> Q' (alter (apply_patch p t) id d)) ->
  hoare (fun w => Q (db w)) (video_generations_update p id)
    (fun o w => match o with
                | Ok _ => Q' (db w)
                | Throw _ => False
                end).
Proof.
  intros Hskip Hdone [d f us ud c tok ps cs] Hw.
  unfold video_generations_update. unfold_monad. simpl in *.
  destruct f as [|[e|] fs]; simpl; auto.
Qed.

(** A delete reports whether it was applied. *)
Lemma table_delete id (Q Q' : gmap string generation -> Prop) :
  (forall d, Q d -> Q' (delete id d)) ->
  hoare (fun w => Q (db w)) (video_generations_delete id)
    (fun o w => match o with
                | Ok None => Q' (db w)
                | _ => Q (db w)
                end).
Proof.
  intros Hdone [d f us ud c tok ps cs] Hw.
  unfold video_generations_delete. unfold_monad. simpl in *.
  destruct f as [|[e|] fs]; simpl; auto.
Qed.

(** An insert stores a pending row without external id under a key that
    was not in use, or leaves the table alone. *)
Lemma table_insert user body (Q : gmap string generation -> Prop) :
  hoare (fun w => Q (db w)) (video_generations_insert (new_generation user body))
    (fun o w => match o with
                | Ok (inr g) =>
                    exists d, Q d /\ d !! row_id g = None
                              /\ db w = <[row_id g := g]> d
                              /\ status g = PENDING /\ external_id g = None
                | _ => Q (db w)
                end).
Proof.
  intros [d f us ud c tok ps cs] Hw.
  unfold video_generations_insert. unfold_monad. simpl in *.
  destruct f as [|[e|] fs]; simpl; try done.
  all: destruct (d !! us ud) eqn:Hk; simpl; try done.
  all: by exists d.
Qed.

(** ** A stored row that no statement addresses is kept *)

Lemma keeps_stays {A} (m : M A) id r :
  stays m -> hoare (keeps id r) m (fun _ => keeps id r).
Proof. intro Hm. exact (hoare_stays m (fun d => d !! id = Some r) Hm). Qed.

Lemma keeps_update p id' id r :
  id' <> id ->
  hoare (keeps id r) (video_generations_update p id') (fun _ => keeps id r).
Proof.
  intros Hne.
  apply (table_update p id' (fun d => d !! id = Some r) (fun d => d !! id = Some r));
    [done|].
  intros d t Hd. by rewrite lookup_alter_ne.
Qed.

Lemma keeps_delete id' id r :
  id' <> id ->
  hoare (keeps id r) (video_generations_delete id') (fun _ => keeps id r).
Proof.
  intros Hne.
  eapply hoare_weaken;
    [apply (table_delete id' (fun d => d !! id = Some r) (fun d => d !! id = Some r))
    | done | by intros [[e|]|e] w H].
  intros d Hd. by rewrite lookup_delete_ne.
Qed.

(** An insert keeps the row and creates its own under another key. *)
Lemma keeps_insert user body id r :
  hoare (keeps id r) (video_generations_insert (new_generation user body))
    (fun o w => keeps id r w /\ forall g, o = Ok (inr g) -> row_id g <> id).
Proof.
  eapply hoare_weaken;
    [apply (table_insert user body (fun d => d !! id = Some r)) | done |].
  intros [[e|g]|e] w H; try (split; [done | by intros g' [=]]).
  destruct H as (d & Hd & Hk & Hdb & _).
  assert (row_id g <> id) as Hne by congruence.
  split; [|by intros g' [= <-]].
  unfold keeps. rewrite Hdb. by rewrite lookup_insert_ne.
Qed.

(** A read keeps the row and returns what is stored. *)
Lemma keeps_single id' id r :
  hoare (keeps id r) (video_generations_single id')
    (fun o w => keeps id r w /\ forall g, o = Ok (inr g) -> db w !! id' = Some g).
Proof. apply (table_single id' (fun d => d !! id = Some r)). Qed.

Lemma keeps_startVideoGeneration input id' model id r :
  id' <> id ->
  hoare (keeps id r) (startVideoGeneration replicate input id' model)
    (fun _ => keeps id r).
Proof.
  intros Hne. unfold startVideoGeneration.
  apply hoare_try_catch with (mid := fun _ => keeps id r); [|done|].
  - apply hoare_bind with (mid := fun _ => keeps id r); [|intros _|done].
    { apply keeps_stays, stays_getReplicateClient. }
    apply hoare_bind with (mid := fun _ => keeps id r); [|intros created|done].
    { apply keeps_stays, stays_create. }
    apply hoare_bind with (mid := fun _ => keeps id r); [|intros _|done].
    { by apply keeps_update. }
    by apply hoare_ret.
  - intros e.
    apply hoare_bind with (mid := fun _ => keeps id r); [|intros _|done].
    { by apply keeps_update. }
    by apply hoare_throw.
Qed.

Lemma keeps_generate body id r :
  hoare (keeps id r) (generate replicate body) (fun _ => keeps id r).
Proof.
  unfold generate.
  apply hoare_try_catch with (mid := fun _ => keeps id r);
    [|done|intros e; by apply hoare_ret].
  destruct (validateVideoGeneration body); [|by apply hoare_ret].
  apply hoare_bind with (mid := fun _ => keeps id r); [|intros user|done].
  { apply keeps_stays, stays_uuidv4. }
  apply hoare_bind with (mid := fun _ => keeps id r); [|intros [e|]|done].
  { apply keeps_stays, stays_next_statement. }
  { by apply hoare_ret. }
  eapply hoare_bind; [apply keeps_insert| |by intros e w [? _]].
  intros [e|g]; [apply hoare_ret; by intros w [? _]|].
  apply hoare_exploit with (Q := row_id g <> id); [intros w [_ H]; by apply H|].
  intros Hne.
  apply hoare_try_catch with (mid := fun _ => keeps id r); [|done|].
  - apply hoare_bind with (mid := fun _ => keeps id r); [|intros _|done].
    { eapply hoare_weaken; [by apply keeps_startVideoGeneration| by intros w [? _] | done]. }
    by apply hoare_ret.
  - intros e.
    apply hoare_bind with (mid := fun _ => keeps id r); [|intros _|done].
    { by apply keeps_update. }
    by apply hoare_ret.
Qed.

Lemma keeps_reconcile id' stored ext id r :
  id' <> id ->
  hoare (keeps id r) (reconcile replicate id' stored ext) (fun _ => keeps id r).
Proof.
  intros Hne. unfold reconcile.
  apply hoare_try_catch with (mid := fun _ => keeps id r);
    [|done|intros e; by apply hoare_ret].
  apply hoare_bind with (mid := fun _ => keeps id r); [|intros payload|done].
  { apply keeps_stays, stays_checkGenerationStatus. }
  destruct (String.eqb (pred_status payload) "succeeded").
  - apply hoare_bind with (mid := fun _ => keeps id r); [|intros url|done].
    { apply keeps_stays, stays_getGeneratedVideo. }
    apply hoare_bind with (mid := fun _ => keeps id r); [|intros _|done].
    { by apply keeps_update. }
    by apply hoare_ret.
  - destruct (String.eqb (pred_status payload) "failed"); [|by apply hoare_ret].
    apply hoare_bind with (mid := fun _ => keeps id r); [|intros _|done].
    { by apply keeps_update. }
    by apply hoare_ret.
Qed.

(** A poll keeps every row that is in a terminal state, its own included. *)
Lemma keeps_get_status id' id r :
  terminal (status r) = true ->
  hoare (keeps id r) (get_status replicate id') (fun _ => keeps id r).
Proof.
  intros Hterm. unfold get_status.
  apply hoare_try_catch with (mid := fun _ => keeps id r);
    [|done|intros e; by apply hoare_ret].
  eapply hoare_bind; [apply keeps_single| |by intros e w [? _]].
  intros [e|g]; [apply hoare_ret; by intros w [? _]|].
  apply hoare_bind with (mid := fun _ => keeps id r);
    [|intros current; by apply hoare_ret|done].
  destruct (bool_decide (status g = PROCESSING)) eqn:Hs; simpl;
    [|apply hoare_ret; by intros w [? _]].
  destruct (truthy (external_id g)); [|apply hoare_ret; by intros w [? _]].
  apply bool_decide_eq_true in Hs.
  apply hoare_exploit with (Q := id' <> id).
  { intros w [Hk Hg] ->. unfold keeps in Hk. rewrite (Hg g eq_refl) in Hk.
    injection Hk as ->. rewrite Hs in Hterm. discriminate. }
  intros Hne.
  eapply hoare_weaken; [by apply keeps_reconcile| by intros w [? _] | done].
Qed.

(** So does a cancellation. *)
Lemma keeps_cancel id' id r :
  terminal (status r) = true ->
  hoare (keeps id r) (cancel replicate id') (fun _ => keeps id r).
Proof.
  intros Hterm. unfold cancel.
  apply hoare_try_catch with (mid := fun _ => keeps id r);
    [|done|intros e; by apply hoare_ret].
  eapply hoare_bind; [apply keeps_single| |by intros e w [? _]].
  intros [e|g]; [apply hoare_ret; by intros w [? _]|].
  destruct (decide (status g <> PROCESSING)) as [Hs|Hs];
    [apply hoare_ret; by intros w [? _]|].
  apply dec_stable in Hs.
  apply hoare_exploit with (Q := id' <> id).
  { intros w [Hk Hg] ->. unfold keeps in Hk. rewrite (Hg g eq_refl) in Hk.
    injection Hk as ->. rewrite Hs in Hterm. discriminate. }
  intros Hne.
  apply hoare_bind with (mid := fun _ => keeps id r); [|intros _|done].
  { destruct (truthy (external_id g)).
    - eapply hoare_weaken;
        [apply keeps_stays, stays_cancelGeneration| by intros w [? _] | done].
    - apply hoare_ret. by intros w [? _]. }
  apply hoare_bind with (mid := fun _ => keeps id r); [|intros [e|]|done].
  { by apply keeps_update. }
  all: by apply hoare_ret.
Qed.

Lemma keeps_list query id r :
  hoare (keeps id r) (list_generations query) (fun _ => keeps id r).
Proof.
  apply keeps_stays. unfold list_generations.
  apply stays_try_catch; [|intro; apply stays_ret].
  apply stays_bind.
  - unfold video_generations_range.
    apply stays_bind; [apply stays_next_statement|].
    intros [e|]; [apply stays_ret|]. intro w. by repeat case_match.
  - intros [e|[gens count]]; apply stays_ret.
Qed.

(** A deletion keeps every row but its own. *)
Lemma keeps_delete_generation id' id r :
  id' <> id ->
  hoare (keeps id r) (delete_generation id') (fun _ => keeps id r).
Proof.
  intros Hne. unfold delete_generation.
  apply hoare_try_catch with (mid := fun _ => keeps id r);
    [|done|intros e; by apply hoare_ret].
  eapply hoare_bind; [apply keeps_single| |by intros e w [? _]].
  intros [e|g]; [apply hoare_ret; by intros w [? _]|].
  apply hoare_bind with (mid := fun _ => keeps id r); [|intros [e|]|done].
  { eapply hoare_weaken; [by apply keeps_delete| by intros w [? _] | done]. }
  all: by apply hoare_ret.
Qed.

(** A deletion either removes its row or leaves the table as it was. *)
Lemma delete_generation_table id w :
  db (delete_generation id w).1 = db w
  \/ db (delete_generation id w).1 = delete id (db w).
Proof.
  destruct w as [d f us ud c tok ps cs].
  unfold delete_generation, video_generations_single, video_generations_delete.
  unfold_monad. simpl.
  destruct f as [|[e|] [|[e'|] fs]]; simpl; auto.
  all: destruct (d !! id); simpl; auto.
Qed.

(** ** Terminal states *)

Lemma cancel_refused w id r :
  db_faults w = [] -> db w !! id = Some r -> status r <> PROCESSING ->
  cancel replicate id w =
    (w, Ok {| code := 400;
              json := ErrorBody "Can only cancel processing generations" None |}).
Proof.
  intros Hf Hr Hs. unfold cancel, try_catch, bind at 1.
  rewrite (single_found _ _ _ Hf Hr).
  destruct (decide (status r <> PROCESSING)); [reflexivity | contradiction].
Qed.

Lemma status_read_only w id r :
  db_faults w = [] -> db w !! id = Some r ->
  status r <> PROCESSING \/ external_id r = None ->
  get_status replicate id w =
    (w, Ok {| code := 200; json := StatusBody (view_of r) |}).
Proof.
  intros Hf Hr Hs. unfold get_status, try_catch, bind at 1.
  rewrite (single_found _ _ _ Hf Hr).
  assert (bool_decide (status r = PROCESSING) && truthy (external_id r) = false) as ->.
  { destruct Hs as [Hs | Hs].
    - by rewrite bool_decide_eq_false_2.
    - rewrite Hs. apply andb_false_r. }
  reflexivity.
Qed.

Lemma terminal_not_processing r : terminal (status r) = true -> status r <> PROCESSING.
Proof. intros H Hs. rewrite Hs in H. discriminate. Qed.



(** ** Submission *)

Ltac unfold_generate :=
  unfold generate, startVideoGeneration, video_generations_insert,
    video_generations_update, getReplicateClient, client_predictions_create;
  unfold_monad.

Lemma in_numbers_durations n :
  in_numbers n SUPPORTED_DURATIONS = true <-> n = 5 \/ n = 10.
Proof. unfold in_numbers, SUPPORTED_DURATIONS. simpl. lia. Qed.

Lemma in_strings_elem s l : in_strings s l = true <-> s ∈ l.
Proof.
  unfold in_strings. rewrite existsb_exists. split.
  - intros (x & Hx & Heq). apply String.eqb_eq in Heq. subst.
    by apply list_elem_of_In.
  - intros Hs. exists s. split; [by apply list_elem_of_In | apply String.eqb_refl].
Qed.

Lemma in_strings_nonempty s l :
  in_strings "" l = false -> in_strings s l = true -> String.eqb s "" = false.
Proof.
  intros Hno Hs. destruct (String.eqb_spec s ""); [subst; congruence | done].
Qed.

(** What a body that passes the validation looks like. *)
Lemma valid_body b :
  validateVideoGeneration b = [] ->
  (exists p, req_prompt b = Some p /\ length_between 1 1000 (trim p) = true)
  /\ (forall d, req_duration b = Some d -> d = 5 \/ d = 10)
  /\ (forall a, req_aspect_ratio b = Some a -> in_strings a SUPPORTED_ASPECT_RATIOS = true)
  /\ (forall x, req_resolution b = Some x -> in_strings x SUPPORTED_RESOLUTIONS = true).
Proof.
  unfold validateVideoGeneration. intros H.
  apply app_eq_nil in H as [Hp H]. apply app_eq_nil in H as [Hd H].
  apply app_eq_nil in H as [Ha H]. apply app_eq_nil in H as [Hx _].
  repeat split.
  - unfold check_prompt in Hp. apply app_eq_nil in Hp as [Hs Hl].
    destruct (req_prompt b) as [p|]; [|discriminate]. exists p. split; [done|].
    simpl in Hl. by destruct (length_between 1 1000 (trim p)).
  - intros d Hd'. unfold check_duration in Hd. rewrite Hd' in Hd.
    apply in_numbers_durations. by destruct (in_numbers d SUPPORTED_DURATIONS).
  - intros a Ha'. unfold check_aspect_ratio in Ha. rewrite Ha' in Ha.
    by destruct (in_strings a SUPPORTED_ASPECT_RATIOS).
  - intros x Hx'. unfold check_resolution in Hx. rewrite Hx' in Hx.
    unfold SUPPORTED_RESOLUTIONS. by destruct (in_strings x _).
Qed.

Lemma length_between_nonempty s hi :
  length_between 1 hi s = true -> String.eqb s "" = false.
Proof. unfold length_between. destruct s; simpl; [discriminate | done]. Qed.

Lemma valid_duration b :
  validateVideoGeneration b = [] ->
  or_number (req_duration b) 5 = default 5 (req_duration b).
Proof.
  intros (_ & Hd & _)%valid_body. destruct (req_duration b) as [d|]; [|done].
  simpl. destruct (Hd d eq_refl) as [-> | ->]; reflexivity.
Qed.

Lemma valid_aspect_ratio b :
  validateVideoGeneration b = [] ->
  or_string (req_aspect_ratio b) "16:9" = default "16:9" (req_aspect_ratio b).
Proof.
  intros (_ & _ & Ha & _)%valid_body. destruct (req_aspect_ratio b) as [a|]; [|done].
  simpl. by rewrite (in_strings_nonempty a SUPPORTED_ASPECT_RATIOS eq_refl (Ha a eq_refl)).
Qed.

Lemma valid_resolution b :
  validateVideoGeneration b = [] ->
  or_string (req_resolution b) "720p" = default "720p" (req_resolution b).
Proof.
  intros (_ & _ & _ & Hx)%valid_body. destruct (req_resolution b) as [x|]; [|done].
  simpl. by rewrite (in_strings_nonempty x SUPPORTED_RESOLUTIONS eq_refl (Hx x eq_refl)).
Qed.

(** For a valid body the request that the code builds is the normalized
    request of the contract. *)
Lemma valid_request b :
  validateVideoGeneration b = [] ->
  replicateInput (input_data (sanitized b)) = normalized_request b.
Proof.
  intros Hv. pose proof (valid_body b Hv) as ((p & Hp & Hlen) & Hd & Ha & Hx).
  pose proof (valid_duration b Hv) as Ed.
  pose proof (valid_aspect_ratio b Hv) as Ea.
  pose proof (valid_resolution b Hv) as Ex.
  unfold replicateInput, normalized_request, input_data, sanitized. simpl.
  rewrite Hp. simpl. rewrite (length_between_nonempty _ _ Hlen).
  rewrite Ed, Ea, Ex. f_equal.
  - destruct (req_duration b) as [d|]; simpl; [|done].
    destruct (Hd d eq_refl) as [-> | ->]; reflexivity.
  - destruct (req_aspect_ratio b) as [a|]; simpl; [|done].
    by rewrite (in_strings_nonempty a SUPPORTED_ASPECT_RATIOS eq_refl (Ha a eq_refl)).
  - destruct (req_resolution b) as [x|]; simpl; [|done].
    by rewrite (in_strings_nonempty x SUPPORTED_RESOLUTIONS eq_refl (Hx x eq_refl)).
  - destruct (req_image b) as [[|c i]|]; reflexivity.
Qed.

Lemma generate_invalid w b :
  validateVideoGeneration b <> [] ->
  generate replicate b w =
    (w, Ok {| code := 400; json := ValidationFailed (validateVideoGeneration b) |}).
Proof.
  intros Hv. unfold generate, try_catch, respond, ret.
  destruct (validateVideoGeneration b); [done | reflexivity].
Qed.

Lemma generate_collision w b :
  validateVideoGeneration b = [] -> db_faults w = [] ->
  is_Some (db w !! uuid_source w (S (uuid_drawn w))) ->
  exists e,
    generate replicate b w =
      (with_drawn (S (S (uuid_drawn w))) w,
       Ok {| code := 500;
             json := ErrorBody "Failed to create video generation record" (Some e) |}).
Proof.
  intros Hv Hf [x Hx]. destruct w as [d f us ud c tok ps cs]. simpl in *. subst f.
  unfold_generate. rewrite Hv. simpl. rewrite Hx. eauto.
Qed.

Lemma generate_accepted w b p' created :
  validateVideoGeneration b = [] -> db_faults w = [] ->
  db w !! uuid_source w (S (uuid_drawn w)) = None ->
  truthy (REPLICATE_API_TOKEN w) = true ->
  predictions_create replicate (provider_state w) "bytedance/seedance-1-lite"
    (replicateInput (input_data (sanitized b))) = (p', inr created) ->
  let key := uuid_source w (S (uuid_drawn w)) in
  generate replicate b w =
    (with_db
       (<[key := apply_patch (accepted_patch (pred_id created)) (clock w)
                   (new_generation (uuid_source w (uuid_drawn w)) (sanitized b) key
                      (clock w))]> (db w))
       (with_call p'
          (PredictionsCreate "bytedance/seedance-1-lite"
             (replicateInput (input_data (sanitized b))))
          (with_drawn (S (S (uuid_drawn w))) w)),
     Ok {| code := 201; json := GenerationStarted key PROCESSING |}).
Proof.
  intros Hv Hf Hk Ht Hc. destruct w as [d f us ud c tok ps cs]. simpl in *. subst f.
  unfold_generate. rewrite Hv. simpl. rewrite Hk. simpl. rewrite Ht. simpl.
  rewrite Hc. simpl. unfold with_db. simpl. rewrite alter_insert_eq. reflexivity.
Qed.

Lemma generate_rejected w b p' e :
  validateVideoGeneration b = [] -> db_faults w = [] ->
  db w !! uuid_source w (S (uuid_drawn w)) = None ->
  truthy (REPLICATE_API_TOKEN w) = true ->
  predictions_create replicate (provider_state w) "bytedance/seedance-1-lite"
    (replicateInput (input_data (sanitized b))) = (p', inl e) ->
  let key := uuid_source w (S (uuid_drawn w)) in
  generate replicate b w =
    (with_db
       (<[key := apply_patch (failed_patch e) (clock w)
                   (apply_patch (failed_patch e) (clock w)
                      (new_generation (uuid_source w (uuid_drawn w)) (sanitized b) key
                         (clock w)))]> (db w))
       (with_call p'
          (PredictionsCreate "bytedance/seedance-1-lite"
             (replicateInput (input_data (sanitized b))))
          (with_drawn (S (S (uuid_drawn w))) w)),
     Ok {| code := 500;
           json := ErrorBody "Failed to start video generation" (Some e) |}).
Proof.
  intros Hv Hf Hk Ht Hc. destruct w as [d f us ud c tok ps cs]. simpl in *. subst f.
  unfold_generate. rewrite Hv. simpl. rewrite Hk. simpl. rewrite Ht. simpl.
  rewrite Hc. simpl. unfold with_db. simpl.
  rewrite alter_insert_eq. rewrite alter_insert_eq. reflexivity.
Qed.

Lemma generate_without_token w b :
  validateVideoGeneration b = [] -> db_faults w = [] ->
  db w !! uuid_source w (S (uuid_drawn w)) = None ->
  truthy (REPLICATE_API_TOKEN w) = false ->
  let key := uuid_source w (S (uuid_drawn w)) in
  let e := "REPLICATE_API_TOKEN environment variable is required" in
  generate replicate b w =
    (with_db
       (<[key := apply_patch (failed_patch e) (clock w)
                   (apply_patch (failed_patch e) (clock w)
                      (new_generation (uuid_source w (uuid_drawn w)) (sanitized b) key
                         (clock w)))]> (db w))
       (with_drawn (S (S (uuid_drawn w))) w),
     Ok {| code := 500;
           json := ErrorBody "Failed to start video generation" (Some e) |}).
Proof.
  intros Hv Hf Hk Ht. destruct w as [d f us ud c tok ps cs]. simpl in *. subst f.
  unfold_generate. rewrite Hv. simpl. rewrite Hk. simpl. rewrite Ht. simpl.
  unfold with_db. simpl.
  rewrite alter_insert_eq. rewrite alter_insert_eq. reflexivity.
Qed.

(** C2. A valid submission that the provider accepts, on a store that
    answers and draws an unused key: the response is 201 with the job id and
    status processing; the job's row holds the external id that the provider
    returned, status processing, and the submitted duration, aspect ratio
    and resolution (5, "16:9", "720p" for what was omitted); the one call
    to the provider carries the normalized request, that is 24 frames per
    second, a camera that is not fixed, and the image when one was given. *)
Theorem accepted_submission w b p' created :
  validateVideoGeneration b = [] ->
  db_faults w = [] ->
  db w !! uuid_source w (S (uuid_drawn w)) = None ->
  truthy (REPLICATE_API_TOKEN w) = true ->
  predictions_create replicate (provider_state w) "bytedance/seedance-1-lite"
    (normalized_request b) = (p', inr created) ->
  let key := uuid_source w (S (uuid_drawn w)) in
  exists w' row,
    generate replicate b w =
      (w', Ok {| code := 201; json := GenerationStarted key PROCESSING |})
    /\ db w' = <[key := row]> (db w)
    /\ row_id row = key
    /\ status row = PROCESSING
    /\ external_id row = Some (pred_id created)
    /\ duration row = default 5 (req_duration b)
    /\ aspect_ratio row = default "16:9" (req_aspect_ratio b)
    /\ resolution row = default "720p" (req_resolution b)
    /\ calls w' =
         calls w ++ [PredictionsCreate "bytedance/seedance-1-lite" (normalized_request b)]
    /\ ri_fps (normalized_request b) = 24
    /\ ri_camera_fixed (normalized_request b) = false
    /\ (forall i, req_image b = Some i -> i <> "" ->
        ri_image (normalized_request b) = Some i).
Proof.
  intros Hv Hf Hk Ht Hc key. subst key. rewrite <- (valid_request b Hv) in Hc.
  eexists _, _. split; [exact (generate_accepted w b p' created Hv Hf Hk Ht Hc)|].
  rewrite (valid_request b Hv). simpl.
  repeat split.
  - apply (valid_duration b Hv).
  - apply (valid_aspect_ratio b Hv).
  - apply (valid_resolution b Hv).
  - intros i -> Hi. by destruct i.
Qed.

(** C3. A valid submission whose call to the provider raises an error
    with message [e], on a store that answers and draws an unused key: the
    response is 500 with [e] as its detail, and the row created before the
    call is still stored, with status failed, [e] as its error message (non
    empty, as the messages of the client's errors are) and no external id. *)
Theorem rejected_submission w b p' e :
  validateVideoGeneration b = [] ->
  db_faults w = [] ->
  db w !! uuid_source w (S (uuid_drawn w)) = None ->
  truthy (REPLICATE_API_TOKEN w) = true ->
  predictions_create replicate (provider_state w) "bytedance/seedance-1-lite"
    (normalized_request b) = (p', inl e) ->
  e <> "" ->
  let key := uuid_source w (S (uuid_drawn w)) in
  exists w' row,
    generate replicate b w =
      (w', Ok {| code := 500;
                 json := ErrorBody "Failed to start video generation" (Some e) |})
    /\ db w' !! key = Some row
    /\ (forall id, id <> key -> db w' !! id = db w !! id)
    /\ row_id row = key
    /\ status row = FAILED
    /\ (exists m, error_message row = Some m /\ m <> "" /\ m = e)
    /\ external_id row = None
    /\ prompt row = trim (default "" (req_prompt b))
    /\ duration row = default 5 (req_duration b)
    /\ aspect_ratio row = default "16:9" (req_aspect_ratio b)
    /\ resolution row = default "720p" (req_resolution b).
Proof.
  intros Hv Hf Hk Ht Hc He key. subst key. rewrite <- (valid_request b Hv) in Hc.
  eexists _, _. split; [exact (generate_rejected w b p' e Hv Hf Hk Ht Hc)|].
  simpl. split; [apply lookup_insert_eq|].
  split; [intros id Hne; apply lookup_insert_ne; congruence|].
  do 2 (split; [reflexivity|]).
  split; [by exists e|]. split; [reflexivity|].
  split; [simpl; by destruct (valid_body b Hv) as ((p & -> & _) & _)|].
  split; [simpl; apply (valid_duration b Hv)|].
  split; simpl; [apply (valid_aspect_ratio b Hv) | apply (valid_resolution b Hv)].
Qed.

(** ** Validation *)

Lemma violated_listed b f :
  violated b f = true -> field_name f ∈ path <$> validateVideoGeneration b.
Proof.
  unfold validateVideoGeneration. rewrite !fmap_app. rewrite !elem_of_app.
  destruct f; simpl; intros H.
  - left. unfold check_prompt. destruct (req_prompt b) as [p|]; simpl.
    + apply negb_true_iff in H. rewrite H. simpl. apply list_elem_of_here.
    + apply list_elem_of_here.
  - right; left. unfold check_duration. destruct (req_duration b) as [d|]; [|done].
    apply negb_true_iff, bool_decide_eq_false in H.
    destruct (in_numbers d SUPPORTED_DURATIONS) eqn:E.
    + by apply in_numbers_durations in E.
    + apply list_elem_of_here.
  - right; right; left. unfold check_aspect_ratio.
    destruct (req_aspect_ratio b) as [a|]; [|done].
    apply negb_true_iff, bool_decide_eq_false in H.
    destruct (in_strings a SUPPORTED_ASPECT_RATIOS) eqn:E.
    + by apply in_strings_elem in E.
    + apply list_elem_of_here.
  - right; right; right; left. unfold check_resolution.
    destruct (req_resolution b) as [x|]; [|done].
    apply negb_true_iff, bool_decide_eq_false in H.
    destruct (in_strings x ["480p"; "720p"; "1080p"]) eqn:E.
    + by apply in_strings_elem in E.
    + apply list_elem_of_here.
Qed.


(** ** Polling *)

Ltac unfold_poll :=
  unfold get_status, reconcile, checkGenerationStatus, getGeneratedVideo,
    video_generations_single, video_generations_update, getReplicateClient,
    client_predictions_get;
  unfold_monad.

Lemma alter_stored (d : gmap string generation) id r f :
  d !! id = Some r -> alter f id d = <[id := f r]> d.
Proof.
  intros Hr. apply map_eq. intros k. destruct (decide (id = k)) as [<-|Hne].
  - by rewrite lookup_alter_eq, lookup_insert_eq, Hr.
  - by rewrite lookup_alter_ne, lookup_insert_ne.
Qed.

Lemma nonempty_eqb s : s <> "" -> String.eqb s "" = false.
Proof. apply String.eqb_neq. Qed.

Lemma poll_completed w id r ext p1 payload p2 media url :
  db_faults w = [] -> db w !! id = Some r ->
  status r = PROCESSING -> external_id r = Some ext -> ext <> "" ->
  truthy (REPLICATE_API_TOKEN w) = true ->
  predictions_get replicate (provider_state w) ext = (p1, inr payload) ->
  pred_status payload = "succeeded" ->
  predictions_get replicate p1 ext = (p2, inr media) ->
  pred_status media = "succeeded" -> pred_output media = Some url -> url <> "" ->
  get_status replicate id w =
    (with_db (<[id := apply_patch (completed_patch url payload) (clock w) r]> (db w))
       (with_call p2 (PredictionsGet ext) (with_call p1 (PredictionsGet ext) w)),
     Ok {| code := 200; json := StatusBody (view_of (assign COMPLETED (Some url) r)) |}).
Proof.
  intros Hf Hr Hs He Hne Ht Hg1 Hp1 Hg2 Hp2 Ho Hu.
  destruct w as [d f us ud c tok ps cs]. simpl in *. subst f.
  unfold_poll. simpl. rewrite Hr. simpl. rewrite Hs, He. simpl.
  rewrite (nonempty_eqb ext Hne). simpl.
  rewrite Ht. simpl. rewrite Hg1. simpl. rewrite Hp1. simpl.
  rewrite Ht. simpl. rewrite Hg2. simpl. rewrite Hp2, Ho. simpl.
  rewrite (nonempty_eqb url Hu). simpl.
  unfold with_db. simpl. by rewrite (alter_stored d id r _ Hr).
Qed.

(** The media fetch fails after the status query reported success. *)
Lemma poll_fetch_error w id r ext p1 payload p2 e :
  db_faults w = [] -> db w !! id = Some r ->
  status r = PROCESSING -> external_id r = Some ext -> ext <> "" ->
  truthy (REPLICATE_API_TOKEN w) = true ->
  predictions_get replicate (provider_state w) ext = (p1, inr payload) ->
  pred_status payload = "succeeded" ->
  predictions_get replicate p1 ext = (p2, inl e) ->
  get_status replicate id w =
    (with_call p2 (PredictionsGet ext) (with_call p1 (PredictionsGet ext) w),
     Ok {| code := 200; json := StatusBody (view_of r) |}).
Proof.
  intros Hf Hr Hs He Hne Ht Hg1 Hp1 Hg2.
  destruct w as [d f us ud c tok ps cs]. simpl in *. subst f.
  unfold_poll. simpl. rewrite Hr. simpl. rewrite Hs, He. simpl.
  rewrite (nonempty_eqb ext Hne). simpl.
  rewrite Ht. simpl. rewrite Hg1. simpl. rewrite Hp1. simpl.
  rewrite Ht. simpl. rewrite Hg2. reflexivity.
Qed.


(** C5. A job in status processing with an external id, polled on a
    store that answers: when the status call to the provider raises an error,
    the table is unchanged and the response is 200 with the projection of the
    row as it was stored. *)
Theorem provider_error_is_swallowed w id r ext e :
  db_faults w = [] -> db w !! id = Some r ->
  status r = PROCESSING -> external_id r = Some ext -> ext <> "" ->
  (checkGenerationStatus replicate ext w).2 = Throw e ->
  exists w',
    get_status replicate id w =
      (w', Ok {| code := 200; json := StatusBody (view_of r) |})
    /\ db w' = db w.
Proof.
  intros Hf Hr Hs He Hne Hthrow.
  pose proof (stays_checkGenerationStatus ext w) as Hstay.
  unfold get_status, reconcile, try_catch, bind, respond, ret.
  rewrite (single_found _ _ _ Hf Hr).
  rewrite Hs, He. simpl. rewrite (nonempty_eqb ext Hne). simpl.
  destruct (checkGenerationStatus replicate ext w) as [w1 [a|e']]; simpl in *;
    [discriminate|].
  exists w1. split; [reflexivity | exact Hstay].
Qed.

(** ** Cancellation *)

Ltac unfold_cancel :=
  unfold cancel, cancelGeneration, video_generations_single,
    video_generations_update, getReplicateClient, client_predictions_cancel;
  unfold_monad.

Lemma cancel_missing w id :
  db_faults w = [] -> db w !! id = None ->
  cancel replicate id w =
    (w, Ok {| code := 404; json := ErrorBody "Video generation not found" None |}).
Proof.
  intros Hf Hr. unfold cancel, try_catch, bind at 1.
  destruct (single_missing _ _ Hf Hr) as [e ->]. reflexivity.
Qed.

Lemma cancel_processing w id r :
  db_faults w = [] -> db w !! id = Some r -> status r = PROCESSING ->
  exists w',
    cancel replicate id w =
      (w', Ok {| code := 200; json := CancelledBody id CANCELLED |})
    /\ db w' = <[id := apply_patch cancelled_patch (clock w) r]> (db w).
Proof.
  intros Hf Hr Hs. destruct w as [d f us ud c tok ps cs]. simpl in *. subst f.
  unfold_cancel. simpl. rewrite Hr. simpl.
  destruct (decide (status r <> PROCESSING)) as [Hn|_]; [contradiction|].
  destruct (truthy (external_id r)); simpl.
  - destruct (truthy tok); simpl.
    + destruct (predictions_cancel replicate ps _) as [p1 [e|[]]]; simpl;
        eexists; (split; [reflexivity|]); simpl; by rewrite (alter_stored d id r _ Hr).
    + eexists; (split; [reflexivity|]); simpl; by rewrite (alter_stored d id r _ Hr).
  - eexists; (split; [reflexivity|]); simpl; by rewrite (alter_stored d id r _ Hr).
Qed.

(** C6. A cancellation on a store that answers: 404 when no row has the
    id; 400 and an unchanged world when the row's status is not processing;
    otherwise 200 with the job id and status cancelled, the row's status set
    to cancelled, whatever the provider answers to the cancel. *)
Theorem cancel_contract w id :
  db_faults w = [] ->
  (db w !! id = None ->
   cancel replicate id w =
     (w, Ok {| code := 404; json := ErrorBody "Video generation not found" None |}))
  /\ (forall r, db w !! id = Some r -> status r <> PROCESSING ->
      cancel replicate id w =
        (w, Ok {| code := 400;
                  json := ErrorBody "Can only cancel processing generations" None |}))
  /\ (forall r, db w !! id = Some r -> status r = PROCESSING ->
      exists w',
        cancel replicate id w =
          (w', Ok {| code := 200; json := CancelledBody id CANCELLED |})
        /\ db w' = <[id := apply_patch cancelled_patch (clock w) r]> (db w)
        /\ status (apply_patch cancelled_patch (clock w) r) = CANCELLED).
Proof.
  intros Hf. split; [by apply cancel_missing|].
  split; [intros r Hr Hs; exact (cancel_refused w id r Hf Hr Hs)|].
  intros r Hr Hs. destruct (cancel_processing w id r Hf Hr Hs) as (w' & Hrun & Hdb).
  by exists w'.
Qed.

(** ** Deletion *)

Lemma delete_stored w id r :
  db_faults w = [] -> db w !! id = Some r ->
  delete_generation id w =
    (with_db (delete id (db w)) w, Ok {| code := 200; json := DeletedBody id |}).
Proof.
  intros Hf Hr. destruct w as [d f us ud c tok ps cs]. simpl in *. subst f.
  unfold delete_generation, video_generations_single, video_generations_delete.
  unfold_monad. simpl. rewrite Hr. reflexivity.
Qed.

Lemma delete_missing w id :
  db_faults w = [] -> db w !! id = None ->
  delete_generation id w =
    (w, Ok {| code := 404; json := ErrorBody "Video generation not found" None |}).
Proof.
  intros Hf Hr. unfold delete_generation, try_catch, bind at 1.
  destruct (single_missing _ _ Hf Hr) as [e ->]. reflexivity.
Qed.

(** C10. Deleting a stored job, whatever its status, on a store that
    answers: the response is 200 with the job id, the row is gone and the
    other rows are as they were, and nothing reaches the provider: its log
    and its state are unchanged. *)
Theorem delete_removes_row w id r :
  db_faults w = [] -> db w !! id = Some r ->
  exists w',
    delete_generation id w = (w', Ok {| code := 200; json := DeletedBody id |})
    /\ db w' = delete id (db w)
    /\ db w' !! id = None
    /\ calls w' = calls w
    /\ provider_state w' = provider_state w.
Proof.
  intros Hf Hr. eexists. split; [exact (delete_stored w id r Hf Hr)|].
  simpl. repeat split. apply lookup_delete_eq.
Qed.

(** ** The life-cycle invariant *)

Lemma lifecycle_empty : lifecycle ∅ ∅.
Proof.
  split.
  - intros id r Hr. by rewrite lookup_empty in Hr.
  - intros id Hid. by apply not_elem_of_empty in Hid.
Qed.

Lemma submitting_lifecycle acc key d : submitting acc key d -> lifecycle acc d.
Proof. by intros [H _]. Qed.

Lemma in_flight_lifecycle acc id d : in_flight acc id d -> lifecycle acc d.
Proof. by intros [H _]. Qed.

(** After the insert of a submission. *)
Lemma lifecycle_insert acc d key g :
  lifecycle acc d -> d !! key = None ->
  status g = PENDING -> external_id g = None ->
  submitting acc key (<[key := g]> d).
Proof.
  intros [Hrows Hacc] Hk Hs He.
  assert (key ∉ acc) as Hfresh.
  { intros Hin. destruct (Hacc key Hin) as [x Hx]. congruence. }
  split; [split|split; [done|]].
  - intros id r. destruct (decide (key = id)) as [<-|Hne].
    + rewrite lookup_insert_eq. intros [= <-]. rewrite He, Hs.
      split; [by intros [x Hx] | by intros [Hp _]].
    + rewrite lookup_insert_ne; [|done]. apply Hrows.
  - intros id Hid. destruct (decide (key = id)) as [<-|Hne]; [done|].
    rewrite lookup_insert_ne; [|done]. by apply Hacc.
  - exists g. by rewrite lookup_insert_eq.
Qed.

(** The provider accepted and the update was not applied. *)
Lemma lifecycle_accept_unwritten acc key d :
  submitting acc key d -> lifecycle (acc ∪ {[ key ]}) d.
Proof.
  intros ([Hrows Hacc] & Hfresh & g & Hg & Hs). split.
  - intros id r Hr. rewrite elem_of_union, elem_of_singleton.
    rewrite (Hrows id r Hr). destruct (decide (id = key)) as [->|Hne].
    + assert (r = g) as -> by congruence. rewrite Hs.
      split; intros [Hp _]; done.
    + split; [intros [Hp Hin]; auto | intros [Hp [Hin | Heq]]; [auto | done]].
  - intros id. rewrite elem_of_union, elem_of_singleton.
    intros [Hin | ->]; [by apply Hacc | by eexists].
Qed.

(** The provider accepted and the update was applied. *)
Lemma lifecycle_accept acc key d ext t :
  submitting acc key d ->
  lifecycle (acc ∪ {[ key ]}) (alter (apply_patch (accepted_patch ext) t) key d).
Proof.
  intros ([Hrows Hacc] & Hfresh & g & Hg & Hs). split.
  - intros id r. rewrite elem_of_union, elem_of_singleton.
    destruct (decide (key = id)) as [<-|Hne].
    + rewrite lookup_alter_eq, Hg. intros [= <-]. simpl.
      split; [intros _; split; [done | by right] | by eexists].
    + rewrite lookup_alter_ne; [|done]. intros Hr. rewrite (Hrows id r Hr).
      split; [intros [Hp Hin]; auto | intros [Hp [Hin | Heq]]; [auto | congruence]].
  - intros id. rewrite elem_of_union, elem_of_singleton.
    destruct (decide (key = id)) as [<-|Hne].
    + intros _. rewrite lookup_alter_eq, Hg. by eexists.
    + rewrite lookup_alter_ne; [|done]. intros [Hin | Heq]; [by apply Hacc | congruence].
Qed.

(** An update that names no external id, on a job that is not in [acc]. *)
Lemma lifecycle_update_unaccepted acc d key p t :
  lifecycle acc d -> key ∉ acc -> set_external_id p = None ->
  lifecycle acc (alter (apply_patch p t) key d).
Proof.
  intros [Hrows Hacc] Hfresh He. split.
  - intros id r. destruct (decide (key = id)) as [<-|Hne].
    + rewrite lookup_alter_eq. destruct (d !! key) as [x|] eqn:Hx; [|done].
      intros [= <-]. simpl. rewrite He. simpl.
      rewrite (Hrows key x Hx). split; by intros [_ Hin].
    + rewrite lookup_alter_ne; [|done]. apply Hrows.
  - intros id Hid. destruct (decide (key = id)) as [<-|Hne]; [done|].
    rewrite lookup_alter_ne; [|done]. by apply Hacc.
Qed.

(** An update that names a status other than pending and no external id,
    on a job that is processing. *)
Lemma lifecycle_update_in_flight acc d id p t st :
  in_flight acc id d ->
  set_external_id p = None -> set_status p = Some st -> st <> PENDING ->
  lifecycle acc (alter (apply_patch p t) id d).
Proof.
  intros ([Hrows Hacc] & r & Hr & Hs) He Hst Hne. split.
  - intros k x. destruct (decide (id = k)) as [<-|Hk].
    + rewrite lookup_alter_eq, Hr. intros [= <-]. simpl. rewrite He, Hst. simpl.
      rewrite (Hrows id r Hr), Hs. split; intros [_ Hin]; done.
    + rewrite lookup_alter_ne; [|done]. apply Hrows.
  - intros k Hk. destruct (decide (id = k)) as [<-|Hne'].
    + rewrite lookup_alter_eq, Hr. by eexists.
    + rewrite lookup_alter_ne; [|done]. by apply Hacc.
Qed.

Lemma lifecycle_delete acc d id :
  lifecycle acc d -> lifecycle (acc ∖ {[ id ]}) (delete id d).
Proof.
  intros [Hrows Hacc]. split.
  - intros k x. rewrite elem_of_difference, elem_of_singleton.
    destruct (decide (id = k)) as [<-|Hne].
    + by rewrite lookup_delete_eq.
    + rewrite lookup_delete_ne; [|done]. intros Hx. rewrite (Hrows k x Hx).
      split; [intros [Hp Hin]; split; [done | split; [done | congruence]]
             | by intros [Hp [Hin _]]].
  - intros k. rewrite elem_of_difference, elem_of_singleton. intros [Hin Hne].
    rewrite lookup_delete_ne; [by apply Hacc | congruence].
Qed.

(** ** Every request keeps the invariant *)

Lemma start_lifecycle acc key input model :
  hoare (fun w => submitting acc key (db w))
    (startVideoGeneration replicate input key model)
    (fun o w => match o with
                | Ok _ => lifecycle (acc ∪ {[ key ]}) (db w)
                | Throw _ => lifecycle acc (db w) /\ key ∉ acc
                end).
Proof.
  unfold startVideoGeneration.
  apply hoare_try_catch
    with (mid := fun o w => match o with
                            | Ok _ => lifecycle (acc ∪ {[ key ]}) (db w)
                            | Throw _ => submitting acc key (db w)
                            end); [|done|].
  - apply hoare_bind with (mid := fun _ w => submitting acc key (db w));
      [|intros _|done].
    { apply (hoare_stays _ (submitting acc key)), stays_getReplicateClient. }
    apply hoare_bind with (mid := fun _ w => submitting acc key (db w));
      [|intros created|done].
    { apply (hoare_stays _ (submitting acc key)), stays_create. }
    apply hoare_bind
      with (mid := fun o w => match o with
                              | Ok _ => lifecycle (acc ∪ {[ key ]}) (db w)
                              | Throw _ => False
                              end);
      [|intros _; by apply hoare_ret|done].
    apply (table_update_returns _ _ (submitting acc key)).
    + apply lifecycle_accept_unwritten.
    + intros d t. apply lifecycle_accept.
  - intros e.
    apply hoare_bind with (mid := fun _ w => lifecycle acc (db w) /\ key ∉ acc);
      [|intros _; by apply hoare_throw|done].
    apply (table_update _ _ (submitting acc key)
             (fun d => lifecycle acc d /\ key ∉ acc)).
    + intros d (Hl & Hfresh & _). done.
    + intros d t (Hl & Hfresh & _). split; [|done].
      by apply lifecycle_update_unaccepted.
Qed.

Lemma generate_lifecycle acc b :
  hoare (fun w => lifecycle acc (db w)) (generate replicate b)
    (fun o w => lifecycle (accepted_after o acc) (db w)).
Proof.
  unfold generate.
  apply hoare_try_catch
    with (mid := fun o w => lifecycle (accepted_after o acc) (db w));
    [|done|intros e; by apply hoare_ret].
  destruct (validateVideoGeneration b); [|by apply hoare_ret].
  apply hoare_bind with (mid := fun _ w => lifecycle acc (db w)); [|intros user|done].
  { apply (hoare_stays _ (lifecycle acc)), stays_uuidv4. }
  apply hoare_bind with (mid := fun _ w => lifecycle acc (db w)); [|intros [e|]|done].
  { apply (hoare_stays _ (lifecycle acc)), stays_next_statement. }
  { by apply hoare_ret. }
  eapply hoare_bind; [apply (table_insert _ _ (lifecycle acc))| |done].
  intros [e|g]; [by apply hoare_ret|].
  apply hoare_try_catch
    with (mid := fun o w => match o with
                            | Ok a => lifecycle (accepted_after (Ok a) acc) (db w)
                            | Throw _ => lifecycle acc (db w) /\ row_id g ∉ acc
                            end); [|done|].
  - apply hoare_bind
      with (mid := fun o w => match o with
                              | Ok _ => lifecycle (acc ∪ {[ row_id g ]}) (db w)
                              | Throw _ => lifecycle acc (db w) /\ row_id g ∉ acc
                              end); [|intros _; by apply hoare_ret|done].
    eapply hoare_weaken; [apply (start_lifecycle acc (row_id g))| |done].
    intros w (d & Hl & Hk & -> & Hs & He). by apply lifecycle_insert.
  - intros e.
    apply hoare_bind with (mid := fun _ w => lifecycle acc (db w));
      [|intros _; by apply hoare_ret|done].
    apply (table_update _ _ (fun d => lifecycle acc d /\ row_id g ∉ acc)).
    + by intros d [Hl _].
    + intros d t [Hl Hfresh]. by apply lifecycle_update_unaccepted.
Qed.

Lemma reconcile_lifecycle acc id stored ext :
  hoare (fun w => in_flight acc id (db w)) (reconcile replicate id stored ext)
    (fun _ w => lifecycle acc (db w)).
Proof.
  unfold reconcile.
  apply hoare_try_catch
    with (mid := fun o w => match o with
                            | Ok _ => lifecycle acc (db w)
                            | Throw _ => lifecycle acc (db w)
                            end);
    [|done|intros e; by apply hoare_ret].
  apply hoare_bind with (mid := fun _ w => in_flight acc id (db w));
    [|intros payload|intros e w H; by apply in_flight_lifecycle in H].
  { apply (hoare_stays _ (in_flight acc id)), stays_checkGenerationStatus. }
  destruct (String.eqb (pred_status payload) "succeeded").
  - apply hoare_bind with (mid := fun _ w => in_flight acc id (db w));
      [|intros url|intros e w H; by apply in_flight_lifecycle in H].
    { apply (hoare_stays _ (in_flight acc id)), stays_getGeneratedVideo. }
    apply hoare_bind with (mid := fun _ w => lifecycle acc (db w));
      [|intros _; by apply hoare_ret|done].
    apply (table_update _ _ (in_flight acc id)); [apply in_flight_lifecycle|].
    intros d t H. by eapply lifecycle_update_in_flight.
  - destruct (String.eqb (pred_status payload) "failed");
      [|apply hoare_ret; intros w H; by apply in_flight_lifecycle in H].
    apply hoare_bind with (mid := fun _ w => lifecycle acc (db w));
      [|intros _; by apply hoare_ret|done].
    apply (table_update _ _ (in_flight acc id)); [apply in_flight_lifecycle|].
    intros d t H. by eapply lifecycle_update_in_flight.
Qed.

Lemma get_status_lifecycle acc id :
  hoare (fun w => lifecycle acc (db w)) (get_status replicate id)
    (fun o w => lifecycle (accepted_after o acc) (db w)).
Proof.
  unfold get_status.
  apply hoare_try_catch
    with (mid := fun o w => lifecycle (accepted_after o acc) (db w));
    [|done|intros e; by apply hoare_ret].
  eapply hoare_bind; [apply (table_single _ (lifecycle acc))| |by intros e w [? _]].
  intros [e|g]; [apply hoare_ret; by intros w [? _]|].
  apply hoare_bind with (mid := fun _ w => lifecycle acc (db w));
    [|intros current; by apply hoare_ret|done].
  destruct (bool_decide (status g = PROCESSING)) eqn:Hs; simpl;
    [|apply hoare_ret; by intros w [? _]].
  destruct (truthy (external_id g)); [|apply hoare_ret; by intros w [? _]].
  apply bool_decide_eq_true in Hs.
  eapply hoare_weaken; [apply (reconcile_lifecycle acc id)| |done].
  intros w [Hl Hg]. split; [done|]. exists g. split; [by apply Hg | done].
Qed.

Lemma cancel_lifecycle acc id :
  hoare (fun w => lifecycle acc (db w)) (cancel replicate id)
    (fun o w => lifecycle (accepted_after o acc) (db w)).
Proof.
  unfold cancel.
  apply hoare_try_catch
    with (mid := fun o w => lifecycle (accepted_after o acc) (db w));
    [|done|intros e; by apply hoare_ret].
  eapply hoare_bind; [apply (table_single _ (lifecycle acc))| |by intros e w [? _]].
  intros [e|g]; [apply hoare_ret; by intros w [? _]|].
  destruct (decide (status g <> PROCESSING)) as [Hs|Hs];
    [apply hoare_ret; by intros w [? _]|].
  apply dec_stable in Hs.
  apply hoare_bind with (mid := fun _ w => in_flight acc id (db w));
    [|intros _|intros e w H; by apply in_flight_lifecycle in H].
  { destruct (truthy (external_id g)).
    - eapply hoare_weaken;
        [apply (hoare_stays _ (in_flight acc id)), stays_cancelGeneration| |done].
      intros w [Hl Hg]. split; [done|]. exists g. split; [by apply Hg | done].
    - apply hoare_ret. intros w [Hl Hg]. split; [done|].
      exists g. split; [by apply Hg | done]. }
  apply hoare_bind with (mid := fun _ w => lifecycle acc (db w));
    [|intros [e|]; by apply hoare_ret|done].
  apply (table_update _ _ (in_flight acc id)); [apply in_flight_lifecycle|].
  intros d t H. by eapply lifecycle_update_in_flight.
Qed.

Lemma delete_lifecycle acc id :
  hoare (fun w => lifecycle acc (db w)) (delete_generation id)
    (fun o w => lifecycle (accepted_after o acc) (db w)).
Proof.
  unfold delete_generation.
  apply hoare_try_catch
    with (mid := fun o w => lifecycle (accepted_after o acc) (db w));
    [|done|intros e; by apply hoare_ret].
  eapply hoare_bind; [apply (table_single _ (lifecycle acc))| |by intros e w [? _]].
  intros [e|g]; [apply hoare_ret; by intros w [? _]|].
  eapply hoare_bind.
  - eapply hoare_weaken;
      [apply (table_delete id (lifecycle acc) (lifecycle (acc ∖ {[ id ]})))
      | by intros w [? _] | intros o w H; exact H].
    intros d. apply lifecycle_delete.
  - intros [e|]; by apply hoare_ret.
  - done.
Qed.

Lemma list_effect w query :
  accepted_after (list_generations query w).2 = (fun acc => acc)
  /\ db (list_generations query w).1 = db w.
Proof.
  unfold list_generations.
  generalize (x ← js_sub (from_option QString (QNumber 1) (q_page query)) (QNumber 1);
              y ← to_number (from_option QString (QNumber 10) (q_limit query));
              Some (x * y)).
  intros offset.
  generalize (o ← offset;
              js_sub (js_add o (from_option QString (QNumber 10) (q_limit query)))
                (QNumber 1)).
  intros last. unfold video_generations_range. unfold_monad.
  destruct (db_faults w) as [|[e|] fs]; simpl; try done.
  all: destruct offset as [from|], last as [to|]; simpl; try done.
  all: by destruct ((0 <=? from) && (from <=? to)).
Qed.

Lemma lifecycle_request w acc q :
  lifecycle acc (db w) ->
  lifecycle (accepted_after (handle replicate q w).2 acc) (db (handle replicate q w).1).
Proof.
  intros Hinv. destruct q as [b|id|query|id|id]; simpl.
  - exact (generate_lifecycle acc b w Hinv).
  - exact (get_status_lifecycle acc id w Hinv).
  - by destruct (list_effect w query) as [-> ->].
  - exact (cancel_lifecycle acc id w Hinv).
  - exact (delete_lifecycle acc id w Hinv).
Qed.

Lemma reachable_lifecycle w acc :
  reachable replicate w acc -> lifecycle acc (db w).
Proof.
  induction 1 as [w Hw | w w' acc _ IH Hdb | w acc q _ IH].
  - rewrite Hw. apply lifecycle_empty.
  - by rewrite Hdb.
  - by apply lifecycle_request.
Qed.

(** The provider step of a submission, on a row without external id. *)
Lemma start_on_pending w id g input model :
  db_faults w = [] -> db w !! id = Some g ->
  external_id g = None ->
  match startVideoGeneration replicate input id model w with
  | (w', Ok created) =>
      exists r, db w' !! id = Some r /\ status r = PROCESSING
                /\ external_id r = Some (pred_id created)
  | (w', Throw e) =>
      exists r, db w' !! id = Some r /\ status r = FAILED /\ external_id r = None
                /\ error_message r = Some e
  end.
Proof.
  intros Hf Hg He. destruct w as [d f us ud c tok ps cs]. simpl in *. subst f.
  unfold startVideoGeneration, video_generations_update, getReplicateClient,
    client_predictions_create.
  unfold_monad. simpl.
  destruct (truthy tok); simpl.
  - destruct (predictions_create replicate ps _ _) as [p' [e|created]]; simpl.
    all: rewrite lookup_alter_eq, Hg; simpl; eexists; split; [reflexivity|]; simpl.
    all: by rewrite ?He.
  - rewrite lookup_alter_eq, Hg; simpl; eexists; split; [reflexivity|]; simpl.
    by rewrite ?He.
Qed.

Lemma insert_pending w w' user b g :
  video_generations_insert (new_generation user b) w = (w', Ok (inr g)) ->
  status g = PENDING /\ external_id g = None /\ db w' !! row_id g = Some g.
Proof.
  destruct w as [d f us ud c tok ps cs].
  unfold video_generations_insert. unfold_monad. simpl.
  destruct f as [|[e|] fs]; simpl; try done.
  all: destruct (d !! us ud); simpl; try done.
  all: intros [= <- <-]; simpl; split; [done|]; split; [done|].
  all: apply lookup_insert_eq.
Qed.

(** C8. In every state reached from the empty table by requests handled
    one after the other, whatever the provider and the store do, where [acc]
    is the set of the stored jobs whose submission the provider accepted (the
    jobs answered 201): a stored row has an external id if and only if its
    status has left pending and its job is in [acc]; in particular a pending
    row has none.  A row inserted by a submission is pending and has no
    external id; from such a row, on a store that answers, the provider step
    either succeeds and writes the external id of the returned prediction
    together with status processing, or throws and leaves the row failed
    without an external id. *)
Theorem external_id_iff_accepted w acc :
  reachable replicate w acc ->
  (forall id r, db w !! id = Some r ->
     (status r = PENDING -> external_id r = None)
     /\ (is_Some (external_id r) <-> status r <> PENDING /\ id ∈ acc))
  /\ (forall user b w1 g,
        video_generations_insert (new_generation user b) w = (w1, Ok (inr g)) ->
        status g = PENDING /\ external_id g = None /\ db w1 !! row_id g = Some g)
  /\ (forall w1 id g input model,
        db_faults w1 = [] -> db w1 !! id = Some g ->
        status g = PENDING -> external_id g = None ->
        match startVideoGeneration replicate input id model w1 with
        | (w2, Ok created) =>
            exists r, db w2 !! id = Some r /\ status r = PROCESSING
                      /\ external_id r = Some (pred_id created)
        | (w2, Throw e) =>
            exists r, db w2 !! id = Some r /\ status r = FAILED
                      /\ external_id r = None
        end).
Proof.
  intros Hreach. apply reachable_lifecycle in Hreach as [Hrows Hacc].
  split; [|split].
  - intros id r Hr. pose proof (Hrows id r Hr) as Hiff. split; [|done].
    intros Hs. destruct (external_id r) as [x|] eqn:Hx; [|done].
    destruct Hiff as [Hiff _]. by destruct Hiff as [Hp _]; [eexists|].
  - intros user b w1 g. apply insert_pending.
  - intros w1 id g input model Hf Hg _ He.
    pose proof (start_on_pending w1 id g input model Hf Hg He) as H.
    destruct (startVideoGeneration replicate input id model w1) as [w2 [created|e]].
    + exact H.
    + destruct H as (r & Hr & Hs & Hn & _). by exists r.
Qed.

(** * Further properties of the handlers *)

(** ** Polling: the other answers of the provider *)

(** The provider reports that the prediction failed: the row becomes failed
    with the provider's error text, or "Generation failed" when it gives
    none, and keeps its external id; the response shows status failed next to
    the error message that was stored before the poll. *)
Theorem failed_poll w id r ext p1 payload :
  db_faults w = [] -> db w !! id = Some r ->
  status r = PROCESSING -> external_id r = Some ext -> ext <> "" ->
  truthy (REPLICATE_API_TOKEN w) = true ->
  predictions_get replicate (provider_state w) ext = (p1, inr payload) ->
  pred_status payload = "failed" ->
  exists w' row view,
    get_status replicate id w = (w', Ok {| code := 200; json := StatusBody view |})
    /\ db w' = <[id := row]> (db w)
    /\ status row = FAILED
    /\ error_message row =
         Some (match pred_error payload with
               | Some "" | None => "Generation failed"
               | Some text => text
               end)
    /\ external_id row = Some ext
    /\ video_url row = video_url r
    /\ sv_status view = FAILED
    /\ sv_error_message view = error_message r
    /\ calls w' = calls w ++ [PredictionsGet ext].
Proof.
  intros Hf Hr Hs He Hne Ht Hg1 Hp1.
  destruct w as [d f us ud c tok ps cs]. simpl in *. subst f.
  unfold_poll. simpl. rewrite Hr. simpl. rewrite Hs, He. simpl.
  rewrite (nonempty_eqb ext Hne). simpl.
  rewrite Ht. simpl. rewrite Hg1. simpl. rewrite Hp1. simpl.
  eexists _, _, _. split; [reflexivity|]. simpl.
  split; [by rewrite (alter_stored d id r _ Hr)|]. simpl.
  split; [done|]. split; [by destruct (pred_error payload) as [[|a t]|]|].
  by rewrite He.
Qed.

(** The provider reports a state that is neither success nor failure: one
    query is made, the table is unchanged and the response is the stored
    row. *)
Theorem poll_in_flight w id r ext p1 payload :
  db_faults w = [] -> db w !! id = Some r ->
  status r = PROCESSING -> external_id r = Some ext -> ext <> "" ->
  truthy (REPLICATE_API_TOKEN w) = true ->
  predictions_get replicate (provider_state w) ext = (p1, inr payload) ->
  pred_status payload <> "succeeded" -> pred_status payload <> "failed" ->
  get_status replicate id w =
    (with_call p1 (PredictionsGet ext) w,
     Ok {| code := 200; json := StatusBody (view_of r) |}).
Proof.
  intros Hf Hr Hs He Hne Ht Hg1 Hp1 Hp2.
  destruct w as [d f us ud c tok ps cs]. simpl in *. subst f.
  unfold_poll. simpl. rewrite Hr. simpl. rewrite Hs, He. simpl.
  rewrite (nonempty_eqb ext Hne). simpl.
  rewrite Ht. simpl. rewrite Hg1. simpl.
  apply String.eqb_neq in Hp1, Hp2. by rewrite Hp1, Hp2.
Qed.

(** ** Unknown jobs *)

(** For an id that is not stored, GET /status, POST /cancel and DELETE answer
    404, whatever the store does; the table and the provider are left
    alone. *)
Theorem unknown_job_is_not_found w id :
  db w !! id = None ->
  forall q, q = GetStatus id \/ q = PostCancel id \/ q = Delete id ->
    response_of replicate q w =
      Ok {| code := 404; json := ErrorBody "Video generation not found" None |}
    /\ table_after replicate q w = db w
    /\ calls (handle replicate q w).1 = calls w
    /\ provider_state (handle replicate q w).1 = provider_state w.
Proof.
  intros Hr q Hq. destruct w as [d f us ud c tok ps cs]. simpl in Hr.
  unfold response_of, table_after.
  destruct Hq as [-> | [-> | ->]]; simpl.
  - unfold get_status, video_generations_single. unfold_monad. simpl.
    destruct f as [|[e|] fs]; simpl; rewrite ?Hr; done.
  - unfold cancel, video_generations_single. unfold_monad. simpl.
    destruct f as [|[e|] fs]; simpl; rewrite ?Hr; done.
  - unfold delete_generation, video_generations_single. unfold_monad. simpl.
    destruct f as [|[e|] fs]; simpl; rewrite ?Hr; done.
Qed.

(** ** Submission *)

(** A valid submission on a store that answers and draws an unused key never
    leaves its job pending: the row is processing when the answer is 201 and
    failed when it is 500, and there is no other answer. *)
Theorem submission_is_settled w b :
  validateVideoGeneration b = [] -> db_faults w = [] ->
  db w !! uuid_source w (S (uuid_drawn w)) = None ->
  exists w' row answer,
    generate replicate b w = (w', Ok answer)
    /\ db w' !! uuid_source w (S (uuid_drawn w)) = Some row
    /\ ((code answer = 201 /\ status row = PROCESSING /\ is_Some (external_id row)
         /\ error_message row = None)
        \/ (code answer = 500 /\ status row = FAILED /\ external_id row = None
            /\ is_Some (error_message row))).
Proof.
  intros Hv Hf Hk.
  destruct (truthy (REPLICATE_API_TOKEN w)) eqn:Ht.
  - destruct (predictions_create replicate (provider_state w) "bytedance/seedance-1-lite"
                (replicateInput (input_data (sanitized b)))) as [p' [e|created]] eqn:Hc.
    + eexists _, _, _. split; [exact (generate_rejected w b p' e Hv Hf Hk Ht Hc)|].
      simpl. split; [apply lookup_insert_eq|]. right. by repeat split.
    + eexists _, _, _. split; [exact (generate_accepted w b p' created Hv Hf Hk Ht Hc)|].
      simpl. split; [apply lookup_insert_eq|]. left. by repeat split.
  - eexists _, _, _. split; [exact (generate_without_token w b Hv Hf Hk Ht)|].
    simpl. split; [apply lookup_insert_eq|]. right. by repeat split.
Qed.

(** Without the API token a valid submission is answered 500: the row is
    failed with the message of [getReplicateClient], and nothing reaches the
    provider. *)
Theorem submission_without_token w b :
  validateVideoGeneration b = [] -> db_faults w = [] ->
  db w !! uuid_source w (S (uuid_drawn w)) = None ->
  truthy (REPLICATE_API_TOKEN w) = false ->
  exists w' row,
    generate replicate b w =
      (w', Ok {| code := 500;
                 json := ErrorBody "Failed to start video generation"
                           (Some "REPLICATE_API_TOKEN environment variable is required") |})
    /\ db w' !! uuid_source w (S (uuid_drawn w)) = Some row
    /\ status row = FAILED
    /\ error_message row = Some "REPLICATE_API_TOKEN environment variable is required"
    /\ calls w' = calls w
    /\ provider_state w' = provider_state w.
Proof.
  intros Hv Hf Hk Ht.
  eexists _, _. split; [exact (generate_without_token w b Hv Hf Hk Ht)|].
  simpl. split; [apply lookup_insert_eq|]. by repeat split.
Qed.

(** ** Cancellation and the provider *)

(** Cancelling a processing job that has an external id, with the token set:
    exactly one cancel for that id reaches the provider, and the answer is
    200 whether the provider confirms or raises. *)
Theorem cancel_reaches_provider w id r ext :
  db_faults w = [] -> db w !! id = Some r ->
  status r = PROCESSING -> external_id r = Some ext -> ext <> "" ->
  truthy (REPLICATE_API_TOKEN w) = true ->
  exists w',
    cancel replicate id w =
      (w', Ok {| code := 200; json := CancelledBody id CANCELLED |})
    /\ calls w' = calls w ++ [PredictionsCancel ext]
    /\ provider_state w' = (predictions_cancel replicate (provider_state w) ext).1
    /\ db w' = <[id := apply_patch cancelled_patch (clock w) r]> (db w).
Proof.
  intros Hf Hr Hs He Hne Ht.
  destruct w as [d f us ud c tok ps cs]. simpl in *. subst f.
  unfold_cancel. simpl. rewrite Hr. simpl.
  destruct (decide (status r <> PROCESSING)) as [Hn|_]; [contradiction|].
  rewrite He. simpl. rewrite (nonempty_eqb ext Hne). simpl. rewrite Ht. simpl.
  destruct (predictions_cancel replicate ps ext) as [p1 [e|[]]]; simpl;
    eexists; (split; [reflexivity|]); simpl; by rewrite (alter_stored d id r _ Hr).
Qed.

(** A processing row whose external id is missing or empty, and any
    processing row when the API token is not set, is cancelled in the table
    only: the answer is 200 and nothing reaches the provider. *)
Theorem cancel_stays_local w id r :
  db_faults w = [] -> db w !! id = Some r ->
  status r = PROCESSING ->
  truthy (external_id r) = false \/ truthy (REPLICATE_API_TOKEN w) = false ->
  cancel replicate id w =
    (with_db (<[id := apply_patch cancelled_patch (clock w) r]> (db w)) w,
     Ok {| code := 200; json := CancelledBody id CANCELLED |}).
Proof.
  intros Hf Hr Hs He.
  destruct w as [d f us ud c tok ps cs]. simpl in *. subst f.
  unfold_cancel. simpl. rewrite Hr. simpl.
  destruct (decide (status r <> PROCESSING)) as [Hn|_]; [contradiction|].
  destruct (truthy (external_id r)) eqn:Hx; simpl.
  - destruct He as [He|He]; [discriminate|]. rewrite He. simpl.
    unfold with_db. simpl. by rewrite (alter_stored d id r _ Hr).
  - unfold with_db. simpl. by rewrite (alter_stored d id r _ Hr).
Qed.

(** ** No exception escapes a handler *)

Lemma hoare_free {A} (m : M A) : hoare (fun _ => True) m (fun _ _ => True).
Proof. by intros w _. Qed.

Lemma hoare_bind_free {A B} (m : M A) (k : A -> M B) post :
  (forall a, hoare (fun _ => True) (k a) post) ->
  (forall e w, post (Throw e) w) ->
  hoare (fun _ => True) (bind m k) post.
Proof.
  intros Hk He. apply hoare_bind with (mid := fun _ _ => True);
    [apply hoare_free | exact Hk | intros e w _; apply He].
Qed.

Lemma answers_respond L c body :
  c ∈ L -> hoare (fun _ => True) (respond c body) (answers L).
Proof. intros Hc. apply hoare_ret. by intros w _. Qed.

(** The outermost [try]/[catch] of a handler. *)
Lemma handler_answers L (m : M response) w :
  hoare (fun _ => True) m (answers L) -> 500 ∈ L ->
  exists answer,
    (try_catch m
       (fun error => respond 500 (ErrorBody "Internal server error" (Some error))) w).2
    = Ok answer
    /\ code answer ∈ L.
Proof.
  intros Hm H500. specialize (Hm w I). unfold try_catch, answers in *.
  destruct (m w) as [w' [a|e]]; simpl in *; eauto.
Qed.

Ltac in_codes :=
  repeat first [apply list_elem_of_here | apply list_elem_of_further].

(** Every request is answered: no handler throws, and the status code of the
    answer is one of the codes of its route. *)
Theorem every_request_is_answered q w :
  exists answer,
    response_of replicate q w = Ok answer /\ code answer ∈ route_codes q.
Proof.
  unfold response_of. destruct q as [b|id|query|id|id]; simpl.
  - apply handler_answers; [|in_codes].
    destruct (validateVideoGeneration b); [|apply answers_respond; in_codes].
    apply hoare_bind_free; [intros user|done].
    apply hoare_bind_free; [intros [e|]|done]; [apply answers_respond; in_codes|].
    apply hoare_bind_free; [intros [e|g]|done]; [apply answers_respond; in_codes|].
    apply hoare_try_catch with (mid := answers [201; 400; 500]); [|done|intros e].
    + apply hoare_bind_free; [intros _|done]. apply answers_respond; in_codes.
    + apply hoare_bind_free; [intros _|done]. apply answers_respond; in_codes.
  - apply handler_answers; [|in_codes].
    apply hoare_bind_free; [intros [e|g]|done]; [apply answers_respond; in_codes|].
    apply hoare_bind_free; [intros current|done]. apply answers_respond; in_codes.
  - apply handler_answers; [|in_codes].
    apply hoare_bind_free; [intros [e|[gens count]]|done];
      apply answers_respond; in_codes.
  - apply handler_answers; [|in_codes].
    apply hoare_bind_free; [intros [e|g]|done]; [apply answers_respond; in_codes|].
    destruct (decide (status g <> PROCESSING)); [apply answers_respond; in_codes|].
    apply hoare_bind_free; [intros _|done].
    apply hoare_bind_free; [intros [e|]|done]; apply answers_respond; in_codes.
  - apply handler_answers; [|in_codes].
    apply hoare_bind_free; [intros [e|g]|done]; [apply answers_respond; in_codes|].
    apply hoare_bind_free; [intros [e|]|done]; apply answers_respond; in_codes.
Qed.

(** ** The calls that reach the provider *)

Lemma chatter_ret {A} K n (a : A) : chatter (P := P) K n (ret a).
Proof. intros w. split; [done|]. exists []. by rewrite app_nil_r; repeat split; [|simpl; lia]. Qed.

Lemma chatter_throw {A} K n e : chatter (P := P) K n (throw (A := A) e).
Proof. intros w. split; [done|]. exists []. by rewrite app_nil_r; repeat split; [|simpl; lia]. Qed.

Lemma chatter_weaken {A} K n n' (m : M A) :
  (n <= n')%nat -> chatter K n m -> chatter K n' m.
Proof.
  intros Hn Hm w. destruct (Hm w) as (Ht & new & Hc & HK & Hl).
  split; [done|]. exists new. repeat split; [done..|lia].
Qed.

Lemma chatter_bind {A B} K n1 n2 (m : M A) (k : A -> M B) :
  chatter K n1 m -> (forall a, chatter K n2 (k a)) -> chatter K (n1 + n2) (bind m k).
Proof.
  intros Hm Hk w. destruct (Hm w) as (Ht & new & Hc & HK & Hl). unfold bind.
  destruct (m w) as [w1 [a|e]]; simpl in *.
  - destruct (Hk a w1) as (Ht' & new' & Hc' & HK' & Hl').
    split; [congruence|]. exists (new ++ new').
    rewrite Hc', Hc, app_assoc, length_app. repeat split; [by apply Forall_app | lia].
  - split; [done|]. exists new. repeat split; [done..|lia].
Qed.

Lemma chatter_try_catch {A} K n1 n2 (m : M A) (h : string -> M A) :
  chatter K n1 m -> (forall e, chatter K n2 (h e)) ->
  chatter K (n1 + n2) (try_catch m h).
Proof.
  intros Hm Hh w. destruct (Hm w) as (Ht & new & Hc & HK & Hl). unfold try_catch.
  destruct (m w) as [w1 [a|e]]; simpl in *.
  - split; [done|]. exists new. repeat split; [done..|lia].
  - destruct (Hh e w1) as (Ht' & new' & Hc' & HK' & Hl').
    split; [congruence|]. exists (new ++ new').
    rewrite Hc', Hc, app_assoc, length_app. repeat split; [by apply Forall_app | lia].
Qed.

Lemma traffic_silent {A} K n (m : M A) : silent m -> traffic K n m.
Proof.
  intros Hm. split.
  - intros w. destruct (Hm w) as (Hc & Ht & _). split; [done|].
    exists []. rewrite app_nil_r. repeat split; [done..|simpl; lia].
  - intros w _. destruct (Hm w) as (Hc & _ & Hp). done.
Qed.

Lemma traffic_weaken {A} K n n' (m : M A) :
  (n <= n')%nat -> traffic K n m -> traffic K n' m.
Proof. intros Hn [Hc Hq]. split; [by eapply chatter_weaken | done]. Qed.

Lemma traffic_idle {A} K n (m : M A) : traffic K 0 m -> traffic K n m.
Proof. apply traffic_weaken. lia. Qed.

Lemma traffic_bind {A B} K n1 n2 (m : M A) (k : A -> M B) :
  traffic K n1 m -> (forall a, traffic K n2 (k a)) -> traffic K (n1 + n2) (bind m k).
Proof.
  intros [Hm Hqm] Hk. split.
  - apply chatter_bind; [done|]. intros a. apply (Hk a).
  - intros w Hw. destruct (Hqm w Hw) as [Hc Hp]. destruct (Hm w) as [Ht _].
    unfold bind. destruct (m w) as [w1 [a|e]]; simpl in *; [|done].
    destruct (Hk a) as [_ Hqk]. destruct (Hqk w1) as [Hc' Hp']; [congruence|].
    split; congruence.
Qed.

Lemma traffic_try_catch {A} K n1 n2 (m : M A) (h : string -> M A) :
  traffic K n1 m -> (forall e, traffic K n2 (h e)) ->
  traffic K (n1 + n2) (try_catch m h).
Proof.
  intros [Hm Hqm] Hh. split.
  - apply chatter_try_catch; [done|]. intros e. apply (Hh e).
  - intros w Hw. destruct (Hqm w Hw) as [Hc Hp]. destruct (Hm w) as [Ht _].
    unfold try_catch. destruct (m w) as [w1 [a|e]]; simpl in *; [done|].
    destruct (Hh e) as [_ Hqh]. destruct (Hqh w1) as [Hc' Hp']; [congruence|].
    split; congruence.
Qed.

(** What follows [getReplicateClient] runs only when the token is set. *)
Lemma traffic_guarded {B} K n (k : M B) :
  chatter K n k -> traffic K n (bind getReplicateClient (fun _ => k)).
Proof.
  intros Hk. split.
  - intros w. unfold bind, getReplicateClient.
    destruct (truthy (REPLICATE_API_TOKEN w)); simpl; [apply Hk|].
    split; [done|]. exists []. rewrite app_nil_r. repeat split; [done|simpl; lia].
  - intros w Hw. unfold bind, getReplicateClient. by rewrite Hw.
Qed.

Lemma silent_ret {A} (a : A) : silent (P := P) (ret a).
Proof. by intros w. Qed.

Lemma silent_throw {A} e : silent (P := P) (throw (A := A) e).
Proof. by intros w. Qed.

Lemma silent_next_statement : silent (P := P) next_statement.
Proof. intros w. unfold next_statement. by destruct (db_faults w). Qed.

Lemma silent_uuidv4 : silent (P := P) uuidv4.
Proof. by intros w. Qed.

Lemma silent_single id : silent (P := P) (video_generations_single id).
Proof.
  intros [d f us ud c tok ps cs]. unfold video_generations_single. unfold_monad.
  simpl. destruct f as [|[e|] fs]; simpl; try done. all: by destruct (d !! id).
Qed.

Lemma silent_update p id : silent (P := P) (video_generations_update p id).
Proof.
  intros [d f us ud c tok ps cs]. unfold video_generations_update. unfold_monad.
  simpl. by destruct f as [|[e|] fs].
Qed.

Lemma silent_delete id : silent (P := P) (video_generations_delete id).
Proof.
  intros [d f us ud c tok ps cs]. unfold video_generations_delete. unfold_monad.
  simpl. by destruct f as [|[e|] fs].
Qed.

Lemma silent_insert columns : silent (P := P) (video_generations_insert columns).
Proof.
  intros [d f us ud c tok ps cs]. unfold video_generations_insert. unfold_monad.
  simpl. destruct f as [|[e|] fs]; simpl; try done. all: by destruct (d !! us ud).
Qed.

Lemma silent_range from to : silent (P := P) (video_generations_range from to).
Proof.
  intros [d f us ud c tok ps cs]. unfold video_generations_range. unfold_monad.
  simpl. destruct f as [|[e|] fs]; simpl; try done.
  all: destruct from as [x|], to as [y|]; simpl; try done.
  all: by destruct ((0 <=? x) && (x <=? y)).
Qed.

Lemma chatter_create (K : provider_call -> Prop) model input :
  K (PredictionsCreate model input) ->
  chatter K 1 (client_predictions_create replicate model input).
Proof.
  intros HK w. unfold client_predictions_create.
  destruct (predictions_create replicate _ _ _) as [p [e|x]]; simpl.
  all: split; [done|]; eexists [_]; repeat split; [by apply Forall_singleton | simpl; lia].
Qed.

Lemma chatter_get (K : provider_call -> Prop) ext :
  K (PredictionsGet ext) -> chatter K 1 (client_predictions_get replicate ext).
Proof.
  intros HK w. unfold client_predictions_get.
  destruct (predictions_get replicate _ _) as [p [e|x]]; simpl.
  all: split; [done|]; eexists [_]; repeat split; [by apply Forall_singleton | simpl; lia].
Qed.

Lemma chatter_cancel (K : provider_call -> Prop) ext :
  K (PredictionsCancel ext) -> chatter K 1 (client_predictions_cancel replicate ext).
Proof.
  intros HK w. unfold client_predictions_cancel.
  destruct (predictions_cancel replicate _ _) as [p [e|x]]; simpl.
  all: split; [done|]; eexists [_]; repeat split; [by apply Forall_singleton | simpl; lia].
Qed.

Lemma chatter_silent {A} K (m : M A) : silent m -> chatter K 0 m.
Proof. intros Hm. by destruct (traffic_silent K 0 m Hm). Qed.

Lemma traffic_startVideoGeneration (K : provider_call -> Prop) input id model :
  K (PredictionsCreate "bytedance/seedance-1-lite" (replicateInput input)) ->
  traffic K 1 (startVideoGeneration replicate input id model).
Proof.
  intros HK. unfold startVideoGeneration.
  apply (traffic_try_catch K 1 0).
  - apply traffic_guarded. apply (chatter_bind K 1 0); [by apply chatter_create|].
    intros created. apply (chatter_bind K 0 0); [apply chatter_silent, silent_update|].
    intros _. apply chatter_ret.
  - intros e. apply (traffic_bind K 0 0); [apply traffic_silent, silent_update|].
    intros _. apply traffic_silent, silent_throw.
Qed.

Lemma traffic_checkGenerationStatus (K : provider_call -> Prop) ext :
  K (PredictionsGet ext) -> traffic K 1 (checkGenerationStatus replicate ext).
Proof.
  intros HK. unfold checkGenerationStatus. apply (traffic_try_catch K 1 0).
  - apply traffic_guarded. apply (chatter_bind K 1 0); [by apply chatter_get|].
    intros found. apply chatter_ret.
  - intros e. apply traffic_silent, silent_throw.
Qed.

Lemma traffic_getGeneratedVideo (K : provider_call -> Prop) ext :
  K (PredictionsGet ext) -> traffic K 1 (getGeneratedVideo replicate ext).
Proof.
  intros HK. unfold getGeneratedVideo. apply (traffic_try_catch K 1 0).
  - apply traffic_guarded. apply (chatter_bind K 1 0); [by apply chatter_get|].
    intros found. repeat case_match; first [apply chatter_ret | apply chatter_throw].
  - intros e. apply traffic_silent, silent_throw.
Qed.

Lemma traffic_cancelGeneration (K : provider_call -> Prop) ext :
  K (PredictionsCancel ext) -> traffic K 1 (cancelGeneration replicate ext).
Proof.
  intros HK. unfold cancelGeneration. apply (traffic_try_catch K 1 0).
  - apply traffic_guarded. apply (chatter_bind K 1 0); [by apply chatter_cancel|].
    intros _. apply chatter_ret.
  - intros e. apply traffic_silent, silent_ret.
Qed.

Lemma traffic_respond K c body : traffic (P := P) K 0 (respond c body).
Proof. apply traffic_silent, silent_ret. Qed.

Lemma traffic_handle q : traffic (call_kind q) (call_budget q) (handle replicate q).
Proof.
  destruct q as [b|id|query|id|id]; simpl.
  - unfold generate. apply (traffic_try_catch _ 1 0); [|intros e; apply traffic_respond].
    destruct (validateVideoGeneration b);
      [|apply traffic_idle, traffic_respond].
    apply (traffic_bind _ 0 1); [apply traffic_silent, silent_uuidv4|intros user].
    apply (traffic_bind _ 0 1); [apply traffic_silent, silent_next_statement|].
    intros [e|]; [apply traffic_idle, traffic_respond|].
    apply (traffic_bind _ 0 1); [apply traffic_silent, silent_insert|].
    intros [e|g]; [apply traffic_idle, traffic_respond|].
    apply (traffic_try_catch _ 1 0).
    + apply (traffic_bind _ 1 0); [by apply traffic_startVideoGeneration|].
      intros _. apply traffic_respond.
    + intros e. apply (traffic_bind _ 0 0); [apply traffic_silent, silent_update|].
      intros _. apply traffic_respond.
  - unfold get_status. apply (traffic_try_catch _ 2 0); [|intros e; apply traffic_respond].
    apply (traffic_bind _ 0 2); [apply traffic_silent, silent_single|].
    intros [e|g]; [apply traffic_idle, traffic_respond|].
    apply (traffic_bind _ 2 0); [|intros current; apply traffic_respond].
    destruct (bool_decide (status g = PROCESSING) && truthy (external_id g));
      [|apply traffic_silent, silent_ret].
    unfold reconcile.
    apply (traffic_try_catch _ 2 0); [|intros e; apply traffic_silent, silent_ret].
    apply (traffic_bind _ 1 1); [by apply traffic_checkGenerationStatus|].
    intros payload. destruct (String.eqb (pred_status payload) "succeeded").
    + apply (traffic_bind _ 1 0); [by apply traffic_getGeneratedVideo|].
      intros url. apply (traffic_bind _ 0 0); [apply traffic_silent, silent_update|].
      intros _. apply traffic_silent, silent_ret.
    + destruct (String.eqb (pred_status payload) "failed");
        [|apply traffic_silent, silent_ret].
      apply traffic_idle.
      apply (traffic_bind _ 0 0); [apply traffic_silent, silent_update|].
      intros _. apply traffic_silent, silent_ret.
  - unfold list_generations.
    apply (traffic_try_catch _ 0 0); [|intros e; apply traffic_respond].
    apply (traffic_bind _ 0 0); [apply traffic_silent, silent_range|].
    intros [e|[gens count]]; apply traffic_respond.
  - unfold cancel. apply (traffic_try_catch _ 1 0); [|intros e; apply traffic_respond].
    apply (traffic_bind _ 0 1); [apply traffic_silent, silent_single|].
    intros [e|g]; [apply traffic_idle, traffic_respond|].
    destruct (decide (status g <> PROCESSING));
      [apply traffic_idle, traffic_respond|].
    apply (traffic_bind _ 1 0).
    { destruct (truthy (external_id g));
        [by apply traffic_cancelGeneration
        |apply traffic_silent, silent_ret]. }
    intros _. apply (traffic_bind _ 0 0); [apply traffic_silent, silent_update|].
    intros [e|]; apply traffic_respond.
  - unfold delete_generation.
    apply (traffic_try_catch _ 0 0); [|intros e; apply traffic_respond].
    apply (traffic_bind _ 0 0); [apply traffic_silent, silent_single|].
    intros [e|g]; [apply traffic_respond|].
    apply (traffic_bind _ 0 0); [apply traffic_silent, silent_delete|].
    intros [e|]; apply traffic_respond.
Qed.

(** Whatever the store and the provider do, a request adds to the log only
    calls of its own kind (a submission: one create for the fixed model with
    its own input; a poll: gets; a cancellation: a cancel) and no more than
    its budget (1, 2, 1, and none for listing and deletion); without the API
    token nothing reaches the provider. *)
Theorem provider_traffic q w :
  (exists new,
     calls (handle replicate q w).1 = calls w ++ new
     /\ Forall (call_kind q) new
     /\ (length new <= call_budget q)%nat)
  /\ (truthy (REPLICATE_API_TOKEN w) = false ->
      calls (handle replicate q w).1 = calls w
      /\ provider_state (handle replicate q w).1 = provider_state w).
Proof.
  destruct (traffic_handle q) as [Hc Hq]. split; [|apply Hq].
  by destruct (Hc w) as [_ H].
Qed.

(** ** Listing: when the page is the right one *)

Lemma ceil_quotient a b : 0 < b -> - (- a / b) = (a + b - 1) / b.
Proof.
  intros Hb.
  pose proof (Z.div_mod (- a) b ltac:(lia)) as H1.
  pose proof (Z.mod_pos_bound (- a) b Hb) as H2.
  pose proof (Z.div_mod (a + b - 1) b ltac:(lia)) as H3.
  pose proof (Z.mod_pos_bound (a + b - 1) b Hb) as H4.
  nia.
Qed.

Lemma insert_desc_length r l : length (insert_desc r l) = S (length l).
Proof.
  induction l as [|x l IH]; simpl; [done|].
  destruct (created_at x <? created_at r)%nat; simpl; by rewrite ?IH.
Qed.

Lemma rows_newest_first_length (d : gmap string generation) :
  length (rows_newest_first d) = size d.
Proof.
  unfold rows_newest_first, order_created_desc.
  rewrite <- length_map_to_list, <- (length_fmap snd (map_to_list d)).
  induction (snd <$> map_to_list d) as [|x l IH]; simpl; [done|].
  by rewrite insert_desc_length, IH.
Qed.

Lemma parseInt_number v n : to_number v = Some n -> n <> 0 -> parseInt v = Some n.
Proof.
  destruct v as [m|[|c s]]; simpl; try done.
  unfold string_to_number. simpl. congruence.
Qed.


Lemma leading_zero s : string_to_number (number_to_string 0 +:+ s) = string_to_number s.
Proof. reflexivity. Qed.

Local Arguments parseInt : simpl never.


(** ** Listing: newest first *)

Lemma insert_desc_elem r l x : x ∈ insert_desc r l <-> x = r \/ x ∈ l.
Proof.
  induction l as [|y l IH]; simpl.
  - rewrite list_elem_of_singleton, elem_of_nil. tauto.
  - destruct (created_at y <? created_at r)%nat.
    + rewrite !elem_of_cons. tauto.
    + rewrite !elem_of_cons, IH. tauto.
Qed.

Lemma insert_desc_sorted r l :
  StronglySorted newer_or_same l -> StronglySorted newer_or_same (insert_desc r l).
Proof.
  induction 1 as [|y l Hl IH Hy]; simpl.
  - repeat constructor.
  - destruct (Nat.ltb_spec (created_at y) (created_at r)) as [Hlt|Hge].
    + constructor; [by constructor|]. constructor; [unfold newer_or_same; lia|].
      eapply Forall_impl; [exact Hy|]. unfold newer_or_same. intros z Hz. lia.
    + constructor; [done|]. apply Forall_forall. intros z Hz.
      apply insert_desc_elem in Hz as [->|Hz]; [done|].
      by apply (proj1 (Forall_forall _ _) Hy).
Qed.

Lemma order_created_desc_sorted l : StronglySorted newer_or_same (order_created_desc l).
Proof.
  induction l as [|x l IH]; simpl; [constructor | by apply insert_desc_sorted].
Qed.

Lemma order_created_desc_elem l x : x ∈ order_created_desc l <-> x ∈ l.
Proof.
  induction l as [|y l IH]; simpl; [done|].
  rewrite insert_desc_elem, elem_of_cons, IH. tauto.
Qed.

Lemma slice_sorted from to l :
  StronglySorted newer_or_same l -> StronglySorted newer_or_same (slice from to l).
Proof.
  intros Hl. unfold slice.
  rewrite <- (take_drop (Z.to_nat from) l) in Hl.
  apply StronglySorted_app_1_r in Hl.
  rewrite <- (take_drop (Z.to_nat (to - from + 1)) (drop (Z.to_nat from) l)) in Hl.
  by apply StronglySorted_app_1_l in Hl.
Qed.

Lemma slice_elem from to (l : list generation) x : x ∈ slice from to l -> x ∈ l.
Proof.
  unfold slice. intros Hx.
  by apply (subseteq_drop (Z.to_nat from) l), (subseteq_take (Z.to_nat (to - from + 1))).
Qed.

Lemma slice_length from to (l : list generation) : (length (slice from to l) <= length l)%nat.
Proof. unfold slice. rewrite length_take, length_drop. lia. Qed.

(** Whatever the store does and whatever the query, a listing that is
    answered with rows is answered 200: the rows are in the order newest
    first, each of them is a stored row, they are no more than the stored
    rows, and the reported total is the number of stored rows. *)
Theorem listing_is_newest_first w query c gens pages :
  (list_generations query w).2 = Ok {| code := c; json := ListBody gens pages |} ->
  c = 200
  /\ StronglySorted newer_or_same gens
  /\ (forall g, g ∈ gens -> exists id, db w !! id = Some g)
  /\ (length gens <= size (db w))%nat
  /\ pg_total pages = Z.of_nat (size (db w)).
Proof.
  destruct w as [d f us ud c0 tok ps cs]. unfold list_generations.
  generalize (x ← js_sub (from_option QString (QNumber 1) (q_page query)) (QNumber 1);
              y ← to_number (from_option QString (QNumber 10) (q_limit query));
              Some (x * y)).
  intros offset.
  generalize (o ← offset;
              js_sub (js_add o (from_option QString (QNumber 10) (q_limit query)))
                (QNumber 1)).
  intros last. unfold video_generations_range. unfold_monad. simpl.
  assert (forall from to,
            StronglySorted newer_or_same (slice from to (rows_newest_first d))
            /\ (forall g, g ∈ slice from to (rows_newest_first d) ->
                  exists id, d !! id = Some g)
            /\ (length (slice from to (rows_newest_first d)) <= size d)%nat) as Hslice.
  { intros from to. split; [apply slice_sorted, order_created_desc_sorted|]. split.
    - intros g Hg. apply slice_elem in Hg. unfold rows_newest_first in Hg.
      apply order_created_desc_elem, list_elem_of_fmap in Hg as ([id g'] & -> & Hg).
      exists id. by apply elem_of_map_to_list in Hg.
    - rewrite <- rows_newest_first_length. apply slice_length. }
  destruct f as [|[e|] fs]; simpl; try done.
  all: destruct offset as [from|], last as [to|]; simpl; try done.
  all: destruct ((0 <=? from) && (from <=? to)); simpl; try done.
  all: intros [= <- <- <-]; simpl; rewrite rows_newest_first_length.
  all: destruct (Hslice from to) as (H1 & H2 & H3); done.
Qed.

(** GET /list reads: it leaves the table as it is and nothing reaches the
    provider, whatever the store does. *)
Theorem listing_only_reads w query :
  db (list_generations query w).1 = db w
  /\ calls (list_generations query w).1 = calls w
  /\ provider_state (list_generations query w).1 = provider_state w.
Proof.
  split; [by destruct (list_effect w query)|].
  unfold list_generations, try_catch, bind, respond, ret.
  destruct (silent_range
              (x ← js_sub (from_option QString (QNumber 1) (q_page query)) (QNumber 1);
               y ← to_number (from_option QString (QNumber 10) (q_limit query));
               Some (x * y))
              (o ← (x ← js_sub (from_option QString (QNumber 1) (q_page query)) (QNumber 1);
                    y ← to_number (from_option QString (QNumber 10) (q_limit query));
                    Some (x * y));
               js_sub (js_add o (from_option QString (QNumber 10) (q_limit query)))
                 (QNumber 1))
              w) as (Hc & _ & Hp).
  destruct (video_generations_range _ _ w) as [w1 [[e|[gens count]]|e]]; done.
Qed.

(** ** Validation: exactly the violated fields *)

Lemma listed_is_violated b p :
  p ∈ path <$> validateVideoGeneration b ->
  exists f, field_name f = p /\ violated b f = true.
Proof.
  unfold validateVideoGeneration. rewrite !fmap_app, !elem_of_app.
  intros [H | [H | [H | [H | H]]]].
  - exists Prompt. unfold check_prompt in H. simpl.
    destruct (req_prompt b) as [s|]; simpl in H.
    + destruct (length_between 1 1000 (trim s)); simpl in H;
        rewrite ?elem_of_cons, ?elem_of_nil in H; intuition.
    + destruct (length_between 1 1000 (trim "")); simpl in H;
        rewrite ?elem_of_cons, ?elem_of_nil in H; intuition.
  - exists Duration. unfold check_duration in H. simpl.
    destruct (req_duration b) as [d|]; [|by apply elem_of_nil in H].
    destruct (in_numbers d SUPPORTED_DURATIONS) eqn:E; [by apply elem_of_nil in H|].
    apply list_elem_of_singleton in H. split; [done|].
    apply negb_true_iff, bool_decide_eq_false. intros Hd.
    apply in_numbers_durations in Hd. congruence.
  - exists AspectRatio. unfold check_aspect_ratio in H. simpl.
    destruct (req_aspect_ratio b) as [a|]; [|by apply elem_of_nil in H].
    destruct (in_strings a SUPPORTED_ASPECT_RATIOS) eqn:E; [by apply elem_of_nil in H|].
    apply list_elem_of_singleton in H. split; [done|].
    apply negb_true_iff, bool_decide_eq_false. intros Hd.
    apply in_strings_elem in Hd. congruence.
  - exists Resolution. unfold check_resolution in H. simpl.
    destruct (req_resolution b) as [x|]; [|by apply elem_of_nil in H].
    destruct (in_strings x ["480p"; "720p"; "1080p"]) eqn:E; [by apply elem_of_nil in H|].
    apply list_elem_of_singleton in H. split; [done|].
    apply negb_true_iff, bool_decide_eq_false. intros Hd.
    apply in_strings_elem in Hd. unfold SUPPORTED_RESOLUTIONS in Hd. congruence.
  - by apply elem_of_nil in H.
Qed.


(** ** The sanitizer *)

Lemma rtrim_idempotent s : rtrim (rtrim s) = rtrim s.
Proof.
  induction s as [|c s IH]; simpl; [done|].
  destruct (rtrim s) as [|c' t] eqn:E.
  - destruct (is_space c) eqn:Hc; simpl; [done | by rewrite Hc].
  - simpl in *. by rewrite IH.
Qed.

Lemma ltrim_idempotent s : ltrim (ltrim s) = ltrim s.
Proof.
  induction s as [|c s IH]; simpl; [done|].
  destruct (is_space c) eqn:Hc; [done|]. simpl. by rewrite Hc.
Qed.

Lemma ltrim_rtrim s : ltrim (rtrim s) = rtrim (ltrim s).
Proof.
  induction s as [|c s IH]; simpl; [done|].
  destruct (is_space c) eqn:Hc.
  - rewrite <- IH. destruct (rtrim s) as [|c' t]; simpl; rewrite ?Hc; done.
  - simpl. destruct (rtrim s) as [|c' t]; simpl; rewrite ?Hc; simpl; by rewrite ?Hc.
Qed.

Lemma trim_idempotent s : trim (trim s) = trim s.
Proof.
  unfold trim. by rewrite (ltrim_rtrim (ltrim s)), ltrim_idempotent, rtrim_idempotent.
Qed.

Lemma ltrim_length s : (String.length (ltrim s) <= String.length s)%nat.
Proof.
  induction s as [|c s IH]; simpl; [done|]. destruct (is_space c); simpl; lia.
Qed.

Lemma rtrim_length s : (String.length (rtrim s) <= String.length s)%nat.
Proof.
  induction s as [|c s IH]; simpl; [done|].
  destruct (rtrim s) as [|c' t]; [destruct (is_space c)|]; simpl in *; lia.
Qed.

Lemma trim_length s : (String.length (trim s) <= String.length s)%nat.
Proof.
  unfold trim. etrans; [apply rtrim_length | apply ltrim_length].
Qed.

(** What a valid submission stores, on a store that answers and draws an
    unused key, whether the provider accepts or not: the row agrees with the
    submission on every column the submission fills. *)
Lemma generate_stores w b :
  validateVideoGeneration b = [] -> db_faults w = [] ->
  db w !! uuid_source w (S (uuid_drawn w)) = None ->
  exists w' answer row,
    generate replicate b w = (w', Ok answer)
    /\ db w' = <[uuid_source w (S (uuid_drawn w)) := row]> (db w)
    /\ same_submission
         (new_generation (uuid_source w (uuid_drawn w)) (sanitized b)
            (uuid_source w (S (uuid_drawn w))) (clock w)) row.
Proof.
  intros Hv Hf Hk.
  destruct (truthy (REPLICATE_API_TOKEN w)) eqn:Ht.
  - destruct (predictions_create replicate (provider_state w) "bytedance/seedance-1-lite"
                (replicateInput (input_data (sanitized b)))) as [p' [e|created]] eqn:Hc.
    + eexists _, _, _. split; [exact (generate_rejected w b p' e Hv Hf Hk Ht Hc)|].
      simpl. split; [reflexivity|]. by repeat split.
    + eexists _, _, _. split; [exact (generate_accepted w b p' created Hv Hf Hk Ht Hc)|].
      simpl. split; [reflexivity|]. by repeat split.
  - eexists _, _, _. split; [exact (generate_without_token w b Hv Hf Hk Ht)|].
    simpl. split; [reflexivity|]. by repeat split.
Qed.


(** ** The mapping helpers *)

(** [mapAspectRatioToReplicate] maps each supported ratio to itself, the
    property names that every object inherits to that inherited property,
    and every other string to "16:9"; so but for those names its result is a
    supported ratio, which the validator of the submission accepts. *)
Theorem mapAspectRatioToReplicate_cases customRatio :
  (customRatio ∈ SUPPORTED_ASPECT_RATIOS ->
   mapAspectRatioToReplicate customRatio = Ratio customRatio)
  /\ (customRatio ∈ Object_prototype ->
      mapAspectRatioToReplicate customRatio = InheritedProperty customRatio)
  /\ (customRatio ∉ SUPPORTED_ASPECT_RATIOS -> customRatio ∉ Object_prototype ->
      mapAspectRatioToReplicate customRatio = Ratio "16:9")
  /\ (customRatio ∉ Object_prototype ->
      exists ratio,
        mapAspectRatioToReplicate customRatio = Ratio ratio
        /\ ratio ∈ SUPPORTED_ASPECT_RATIOS
        /\ check_aspect_ratio (Some ratio) = []
        /\ mapAspectRatioToReplicate ratio = Ratio ratio).
Proof.
  assert (customRatio ∈ SUPPORTED_ASPECT_RATIOS ->
          mapAspectRatioToReplicate customRatio = Ratio customRatio) as Hsup.
  { unfold SUPPORTED_ASPECT_RATIOS. rewrite !elem_of_cons, elem_of_nil.
    intros [-> | [-> | [-> | [-> | [-> | [-> | [-> | []]]]]]]]; reflexivity. }
  assert (customRatio ∉ SUPPORTED_ASPECT_RATIOS ->
          own_property customRatio ratioMap = None) as Hown.
  { unfold SUPPORTED_ASPECT_RATIOS. rewrite !not_elem_of_cons.
    intros (H1 & H2 & H3 & H4 & H5 & H6 & H7 & _). unfold ratioMap. cbn [own_property].
    repeat match goal with
           | |- context [String.eqb ?k customRatio] =>
               destruct (String.eqb_spec k customRatio); [congruence|]
           end.
    done. }
  assert (customRatio ∉ SUPPORTED_ASPECT_RATIOS -> customRatio ∉ Object_prototype ->
          mapAspectRatioToReplicate customRatio = Ratio "16:9") as Hother.
  { intros Hn Hp. unfold mapAspectRatioToReplicate. rewrite (Hown Hn).
    destruct (in_strings customRatio Object_prototype) eqn:E; [|done].
    by apply in_strings_elem in E. }
  split; [exact Hsup|]. split; [|split; [exact Hother|]].
  - unfold Object_prototype. rewrite !elem_of_cons, elem_of_nil.
    intros [-> | [-> | [-> | [-> | [-> | [-> | [-> | [-> | [-> | [-> | [-> | [-> | []]]]]]]]]]]]];
      reflexivity.
  - intros Hp. destruct (decide (customRatio ∈ SUPPORTED_ASPECT_RATIOS)) as [Hin|Hout].
    + exists customRatio. split; [by apply Hsup|]. split; [done|].
      split; [|by apply Hsup]. unfold check_aspect_ratio.
      by rewrite (proj2 (in_strings_elem _ _) Hin).
    + exists "16:9". split; [by apply Hother|].
      split; [apply list_elem_of_here|]. split; reflexivity.
Qed.

(** [mapFramesToDuration] answers 5 up to 16 frames and 10 above; it never
    decreases as the frames grow, and its answer is a duration that the
    validator of the submission accepts. *)
Theorem mapFramesToDuration_cases numFrames :
  (numFrames <= 16 -> mapFramesToDuration numFrames = 5)
  /\ (16 < numFrames -> mapFramesToDuration numFrames = 10)
  /\ check_duration (Some (mapFramesToDuration numFrames)) = []
  /\ (forall more, numFrames <= more ->
        mapFramesToDuration numFrames <= mapFramesToDuration more).
Proof.
  unfold mapFramesToDuration. repeat split.
  - intros H. by destruct (Z.leb_spec numFrames 16); [|lia].
  - intros H. by destruct (Z.leb_spec numFrames 16); [lia|].
  - by destruct (numFrames <=? 16).
  - intros more H.
    destruct (Z.leb_spec numFrames 16), (Z.leb_spec more 16); lia.
Qed.

(** ** The service functions *)

(** [cancelGeneration] does not throw: it answers true exactly when the
    token is set and the provider confirms the cancel, false otherwise; the
    table is left alone. *)
Theorem cancelGeneration_answers w ext :
  exists w' confirmed,
    cancelGeneration replicate ext w = (w', Ok confirmed)
    /\ db w' = db w
    /\ (confirmed = true <->
        truthy (REPLICATE_API_TOKEN w) = true
        /\ (predictions_cancel replicate (provider_state w) ext).2 = inr ()).
Proof.
  destruct w as [d f us ud c tok ps cs].
  unfold cancelGeneration, getReplicateClient, client_predictions_cancel.
  unfold_monad. simpl.
  destruct (truthy tok); simpl.
  - destruct (predictions_cancel replicate ps ext) as [p1 [e|[]]]; simpl;
      eexists _, _; (split; [reflexivity|]); split; [done| |done|]; split; try done.
    + by intros [_ ?].
  - eexists _, _. split; [reflexivity|]. split; [done|]. split; [done | by intros [? _]].
Qed.

(** [getGeneratedVideo] returns a media reference only when the provider
    reports success with a non-empty output, and then returns that output;
    otherwise it throws: the provider's own error, "Generation failed: ..."
    for a failed prediction, "Video not ready. Status: ..." in every other
    case, an empty output of a succeeded prediction included.  The table is
    left alone. *)
Theorem getGeneratedVideo_answers w ext :
  truthy (REPLICATE_API_TOKEN w) = true ->
  db (getGeneratedVideo replicate ext w).1 = db w
  /\ match predictions_get replicate (provider_state w) ext with
     | (_, inl e) => (getGeneratedVideo replicate ext w).2 = Throw e
     | (_, inr found) =>
         if String.eqb (pred_status found) "succeeded" then
           match pred_output found with
           | Some "" | None =>
               (getGeneratedVideo replicate ext w).2
               = Throw "Video not ready. Status: succeeded"
           | Some url => (getGeneratedVideo replicate ext w).2 = Ok url
           end
         else if String.eqb (pred_status found) "failed" then
           (getGeneratedVideo replicate ext w).2
           = Throw ("Generation failed: "
                    +:+ match pred_error found with
                        | Some "" | None => "Unknown error"
                        | Some text => text
                        end)
         else
           (getGeneratedVideo replicate ext w).2
           = Throw ("Video not ready. Status: " +:+ pred_status found)
     end.
Proof.
  intros Ht. split; [apply stays_getGeneratedVideo|].
  destruct w as [d f us ud c tok ps cs]. simpl in Ht.
  unfold getGeneratedVideo, getReplicateClient, client_predictions_get.
  unfold_monad. simpl. rewrite Ht. simpl.
  destruct (predictions_get replicate ps ext) as [p1 [e|found]]; simpl; [done|].
  destruct (String.eqb_spec (pred_status found) "succeeded") as [Hs|Hs]; simpl.
  - destruct (pred_output found) as [[|a url]|]; simpl; rewrite ?Hs; done.
  - destruct (String.eqb (pred_status found) "failed"); simpl; [|done].
    by destruct (pred_error found) as [[|a t]|].
Qed.

(** ** The account calls *)

(** [testConnection] tests the token and nothing else: it answers true when
    REPLICATE_API_TOKEN is set, whatever [models.list] does, and false when
    it is not; it does not throw; table and log are left alone, and without
    the token so is the provider. *)
Theorem testConnection_tests_the_token (catalog : Catalog P) w :
  exists w',
    testConnection catalog w = (w', Ok (truthy (REPLICATE_API_TOKEN w)))
    /\ db w' = db w /\ calls w' = calls w
    /\ (truthy (REPLICATE_API_TOKEN w) = false -> w' = w).
Proof.
  destruct w as [d f us ud c tok ps cs].
  unfold testConnection, getReplicateClient, client_call. unfold_monad. simpl.
  destruct (truthy tok); simpl.
  - destruct (models_list catalog ps) as [p1 [e|models]]; simpl; by eexists.
  - by eexists.
Qed.

(** [checkAccount] does not throw.  Without the token it reports the
    failure of [getReplicateClient] with [success] false and leaves the
    provider alone; with the token it reports [success] true in every case:
    the account of [accounts.get], else the user of [user.get], else that
    the information is not available. *)
Theorem checkAccount_reports (catalog : Catalog P) w :
  exists w' report,
    checkAccount catalog w = (w', Ok report)
    /\ db w' = db w /\ calls w' = calls w
    /\ success report = truthy (REPLICATE_API_TOKEN w)
    /\ (truthy (REPLICATE_API_TOKEN w) = false ->
        w' = w
        /\ report = AccountError "REPLICATE_API_TOKEN environment variable is required")
    /\ (truthy (REPLICATE_API_TOKEN w) = true ->
        match accounts_get catalog (provider_state w) with
        | (_, inr account) => report = ByAccountsGet account
        | (p1, inl _) =>
            match user_get catalog p1 with
            | (_, inr user) => report = ByUserGet user
            | (_, inl _) => report = NotAvailable
            end
        end).
Proof.
  destruct w as [d f us ud c tok ps cs].
  unfold checkAccount, getReplicateClient, client_call. unfold_monad. simpl.
  destruct (truthy tok); simpl.
  - destruct (accounts_get catalog ps) as [p1 [e|account]]; simpl.
    + destruct (user_get catalog p1) as [p2 [e'|user]]; simpl;
        eexists _, _; (split; [reflexivity|]); by repeat split.
    + eexists _, _; (split; [reflexivity|]); by repeat split.
  - eexists _, _; (split; [reflexivity|]); by repeat split.
Qed.

(** GET /credits is always answered 200 with the report of [checkAccount],
    whose [success] tells whether the token is set: the 500 of the route is
    never sent.  Table and log are left alone. *)
Theorem credits_are_always_answered (catalog : Catalog P) w :
  exists w' report,
    get_credits catalog w = (w', Ok (200, Credits report))
    /\ (checkAccount catalog w).2 = Ok report
    /\ success report = truthy (REPLICATE_API_TOKEN w)
    /\ db w' = db w /\ calls w' = calls w.
Proof.
  destruct w as [d f us ud c tok ps cs].
  unfold get_credits, checkAccount, getReplicateClient, client_call.
  unfold_monad. simpl.
  destruct (truthy tok); simpl; [|by eexists _, _].
  destruct (accounts_get catalog ps) as [p1 [e|account]]; simpl; [|by eexists _, _].
  destruct (user_get catalog p1) as [p2 [e'|user]]; simpl; by eexists _, _.
Qed.

(** ** What a request does to the table *)

Lemma insert_row user body d0 :
  hoare (fun w => db w = d0) (video_generations_insert (new_generation user body))
    (fun o w => match o with
                | Ok (inr g) =>
                    exists key t, g = new_generation user body key t
                                  /\ d0 !! key = None /\ db w = <[key := g]> d0
                | _ => db w = d0
                end).
Proof.
  intros [d f us ud c tok ps cs] Hw.
  unfold video_generations_insert. unfold_monad. simpl in *. subst d0.
  destruct f as [|[e|] fs]; simpl; try done.
  all: destruct (d !! us ud) eqn:Hk; simpl; try done.
  all: by eexists _, _.
Qed.

Lemma patch_inserted (d : gmap string generation) key g p t :
  alter (apply_patch p t) key (<[key := g]> d) = <[key := apply_patch p t g]> d.
Proof. by rewrite alter_insert_eq. Qed.

Lemma failed_twice e e' t t' g :
  apply_patch (failed_patch e') t' (apply_patch (failed_patch e) t g)
  = apply_patch (failed_patch e') t' g.
Proof. reflexivity. Qed.

Lemma getGeneratedVideo_nonempty ext (Q : gmap string generation -> Prop) :
  hoare (fun w => Q (db w)) (getGeneratedVideo replicate ext)
    (fun o w => Q (db w) /\ forall url, o = Ok url -> url <> "").
Proof.
  intros w Hw. split; [by rewrite stays_getGeneratedVideo|].
  destruct w as [d f us ud c tok ps cs].
  unfold getGeneratedVideo, getReplicateClient, client_predictions_get.
  unfold_monad. simpl.
  destruct (truthy tok); simpl; [|done].
  destruct (predictions_get replicate ps ext) as [p1 [e|found]]; simpl; [done|].
  destruct (String.eqb (pred_status found) "succeeded"); simpl.
  - destruct (pred_output found) as [[|a url]|]; simpl.
    2: by intros u [= <-].
    all: by destruct (String.eqb (pred_status found) "failed").
  - by destruct (String.eqb (pred_status found) "failed").
Qed.

Lemma start_changes input key model g d0 :
  hoare (fun w => db w = <[key := g]> d0)
    (startVideoGeneration replicate input key model)
    (fun o w => match o with
                | Ok _ =>
                    db w = <[key := g]> d0
                    \/ exists ext t, db w = <[key := apply_patch (accepted_patch ext) t g]> d0
                | Throw _ =>
                    db w = <[key := g]> d0
                    \/ exists e t, db w = <[key := apply_patch (failed_patch e) t g]> d0
                end).
Proof.
  unfold startVideoGeneration.
  apply hoare_try_catch
    with (mid := fun o w =>
                   match o with
                   | Ok _ =>
                       db w = <[key := g]> d0
                       \/ exists ext t,
                            db w = <[key := apply_patch (accepted_patch ext) t g]> d0
                   | Throw _ => db w = <[key := g]> d0
                   end); [|done|].
  - apply hoare_bind with (mid := fun _ w => db w = <[key := g]> d0);
      [|intros _|done].
    { apply (hoare_stays _ (fun d => d = <[key := g]> d0)), stays_getReplicateClient. }
    apply hoare_bind with (mid := fun _ w => db w = <[key := g]> d0);
      [|intros created|done].
    { apply (hoare_stays _ (fun d => d = <[key := g]> d0)), stays_create. }
    apply hoare_bind
      with (mid := fun o w =>
                     match o with
                     | Ok _ =>
                         db w = <[key := g]> d0
                         \/ exists ext t,
                              db w = <[key := apply_patch (accepted_patch ext) t g]> d0
                     | Throw _ => False
                     end);
      [|intros _; by apply hoare_ret|done].
    apply (table_update_returns _ _ (fun d => d = <[key := g]> d0)
             (fun d => d = <[key := g]> d0
                       \/ exists ext t,
                            d = <[key := apply_patch (accepted_patch ext) t g]> d0)).
    + by left.
    + intros d t ->. right. eexists _, t. apply patch_inserted.
  - intros e.
    apply hoare_bind
      with (mid := fun _ w =>
                     db w = <[key := g]> d0
                     \/ exists e t, db w = <[key := apply_patch (failed_patch e) t g]> d0);
      [|intros _; by apply hoare_throw|done].
    apply (table_update _ _ (fun d => d = <[key := g]> d0)
             (fun d => d = <[key := g]> d0
                       \/ exists e t, d = <[key := apply_patch (failed_patch e) t g]> d0)).
    + by left.
    + intros d t ->. right. eexists _, t. apply patch_inserted.
Qed.

Lemma generate_changes b d0 :
  hoare (fun w => db w = d0) (generate replicate b)
    (fun _ w => table_change (PostGenerate b) d0 (db w)).
Proof.
  unfold generate.
  apply hoare_try_catch
    with (mid := fun o w => table_change (PostGenerate b) d0 (db w));
    [|done|intros e; by apply hoare_ret].
  destruct (validateVideoGeneration b) eqn:Hv;
    [|apply hoare_ret; intros w ->; by left].
  apply hoare_bind with (mid := fun _ w => db w = d0);
    [|intros user|intros e w ->; by left].
  { apply (hoare_stays _ (fun d => d = d0)), stays_uuidv4. }
  apply hoare_bind with (mid := fun _ w => db w = d0);
    [|intros [e|]|intros e w ->; by left].
  { apply (hoare_stays _ (fun d => d = d0)), stays_next_statement. }
  { apply hoare_ret. intros w ->. by left. }
  eapply hoare_bind; [apply (insert_row user (sanitized b) d0)| |intros e w ->; by left].
  intros [e|g]; [apply hoare_ret; intros w ->; by left|].
  apply hoare_exploit
    with (Q := exists key t, g = new_generation user (sanitized b) key t /\ d0 !! key = None).
  { intros w (key & t & Hg & Hk & _). by exists key, t. }
  intros (key & t & Hg & Hk).
  assert (row_id g = key) as Hid by (by rewrite Hg).
  rewrite Hid.
  assert (forall g', (g' = g
                      \/ (exists ext t', g' = apply_patch (accepted_patch ext) t' g)
                      \/ (exists e t', g' = apply_patch (failed_patch e) t' g)) ->
                     table_change (PostGenerate b) d0 (<[key := g']> d0)) as Hborn.
  { intros g' Hg'. right. split; [done|]. exists key, g'. split; [done|]. split; [|done].
    exists user, t. simpl. by rewrite <- Hg. }
  apply hoare_try_catch
    with (mid := fun o w =>
                   match o with
                   | Ok _ => table_change (PostGenerate b) d0 (db w)
                   | Throw _ =>
                       db w = <[key := g]> d0
                       \/ exists e t', db w = <[key := apply_patch (failed_patch e) t' g]> d0
                   end); [|done|].
  - apply hoare_bind
      with (mid := fun o w =>
                     match o with
                     | Ok _ => table_change (PostGenerate b) d0 (db w)
                     | Throw _ =>
                         db w = <[key := g]> d0
                         \/ exists e t',
                              db w = <[key := apply_patch (failed_patch e) t' g]> d0
                     end); [|intros _; by apply hoare_ret|done].
    eapply hoare_weaken; [apply (start_changes _ key _ g d0)| |].
    + intros w (key' & t' & Hg' & _ & Hdb). rewrite Hdb. f_equal.
      rewrite Hg in Hg'. by injection Hg'.
    + intros [a|e] w H; [|done].
      destruct H as [-> | (ext & t' & ->)]; apply Hborn; [by left|].
      right. left. by exists ext, t'.
  - intros e.
    apply hoare_bind with (mid := fun _ w => table_change (PostGenerate b) d0 (db w));
      [|intros _; by apply hoare_ret|done].
    apply (table_update _ _
             (fun d => d = <[key := g]> d0
                       \/ exists e t', d = <[key := apply_patch (failed_patch e) t' g]> d0)
             (table_change (PostGenerate b) d0)).
    + intros d [-> | (e' & t' & ->)]; apply Hborn; [by left|].
      right. right. by exists e', t'.
    + intros d t2 [-> | (e' & t' & ->)]; rewrite patch_inserted; apply Hborn.
      * right. right. by exists e, t2.
      * right. right. exists e, t2. apply failed_twice.
Qed.

Lemma reconcile_changes id stored ext d0 :
  d0 !! id = Some stored -> status stored = PROCESSING ->
  truthy (external_id stored) = true ->
  hoare (fun w => db w = d0) (reconcile replicate id stored ext)
    (fun _ w => table_change (GetStatus id) d0 (db w)).
Proof.
  intros Hr Hs He. unfold reconcile.
  assert (forall w : world (P := P), db w = d0 -> table_change (GetStatus id) d0 (db w))
    as Hsame by (intros w ->; by left).
  assert (forall r', polled stored r' -> table_change (GetStatus id) d0 (<[id := r']> d0))
    as Hpoll.
  { intros r' Hr'. right. by exists stored, r'. }
  apply hoare_try_catch
    with (mid := fun _ w => table_change (GetStatus id) d0 (db w));
    [|done|intros e; by apply hoare_ret].
  apply hoare_bind with (mid := fun _ w => db w = d0);
    [|intros payload|intros e w; apply Hsame].
  { apply (hoare_stays _ (fun d => d = d0)), stays_checkGenerationStatus. }
  destruct (String.eqb_spec (pred_status payload) "succeeded") as [Hp|Hp].
  - eapply hoare_bind;
      [apply (getGeneratedVideo_nonempty ext (fun d => d = d0))
      | |intros e w [H _]; by apply Hsame].
    intros url.
    apply hoare_exploit with (Q := url <> ""); [intros w [_ H]; by apply H|].
    intros Hurl.
    apply hoare_bind with (mid := fun _ w => table_change (GetStatus id) d0 (db w));
      [|intros _; by apply hoare_ret|done].
    eapply hoare_weaken;
      [apply (table_update _ _ (fun d => d = d0) (table_change (GetStatus id) d0))
      | by intros w [? _] | done].
    + intros d ->. by left.
    + intros d t ->. rewrite (alter_stored d0 id stored _ Hr). apply Hpoll.
      split; [done|]. split; [done|]. exists t. left. by exists url, payload.
  - destruct (String.eqb (pred_status payload) "failed");
      [|apply hoare_ret; intros w; apply Hsame].
    apply hoare_bind with (mid := fun _ w => table_change (GetStatus id) d0 (db w));
      [|intros _; by apply hoare_ret|done].
    apply (table_update _ _ (fun d => d = d0) (table_change (GetStatus id) d0)).
    + intros d ->. by left.
    + intros d t ->. rewrite (alter_stored d0 id stored _ Hr). apply Hpoll.
      split; [done|]. split; [done|]. exists t. right. eexists. split; [|done].
      by destruct (pred_error payload) as [[|a s]|].
Qed.

Lemma get_status_changes id d0 :
  hoare (fun w => db w = d0) (get_status replicate id)
    (fun _ w => table_change (GetStatus id) d0 (db w)).
Proof.
  unfold get_status.
  assert (forall w : world (P := P), db w = d0 -> table_change (GetStatus id) d0 (db w))
    as Hsame by (intros w ->; by left).
  apply hoare_try_catch
    with (mid := fun _ w => table_change (GetStatus id) d0 (db w));
    [|done|intros e; by apply hoare_ret].
  eapply hoare_bind;
    [apply (table_single _ (fun d => d = d0))| |intros e w [? _]; by apply Hsame].
  intros [e|g]; [apply hoare_ret; intros w [? _]; by apply Hsame|].
  apply hoare_exploit with (Q := d0 !! id = Some g).
  { intros w [Hdb Hg]. rewrite <- Hdb. by apply Hg. }
  intros Hg.
  apply hoare_bind with (mid := fun _ w => table_change (GetStatus id) d0 (db w));
    [|intros current; by apply hoare_ret|done].
  destruct (bool_decide (status g = PROCESSING)) eqn:Hs; simpl;
    [|apply hoare_ret; intros w [? _]; by apply Hsame].
  destruct (truthy (external_id g)) eqn:He;
    [|apply hoare_ret; intros w [? _]; by apply Hsame].
  apply bool_decide_eq_true in Hs.
  eapply hoare_weaken; [by apply (reconcile_changes id g _ d0)| |done].
  by intros w [? _].
Qed.

Lemma cancel_changes id d0 :
  hoare (fun w => db w = d0) (cancel replicate id)
    (fun _ w => table_change (PostCancel id) d0 (db w)).
Proof.
  unfold cancel.
  assert (forall w : world (P := P), db w = d0 -> table_change (PostCancel id) d0 (db w))
    as Hsame by (intros w ->; by left).
  apply hoare_try_catch
    with (mid := fun _ w => table_change (PostCancel id) d0 (db w));
    [|done|intros e; by apply hoare_ret].
  eapply hoare_bind;
    [apply (table_single _ (fun d => d = d0))| |intros e w [? _]; by apply Hsame].
  intros [e|g]; [apply hoare_ret; intros w [? _]; by apply Hsame|].
  apply hoare_exploit with (Q := d0 !! id = Some g).
  { intros w [Hdb Hg]. rewrite <- Hdb. by apply Hg. }
  intros Hg.
  destruct (decide (status g <> PROCESSING)) as [Hs|Hs];
    [apply hoare_ret; intros w [? _]; by apply Hsame|].
  apply dec_stable in Hs.
  apply hoare_bind with (mid := fun _ w => db w = d0);
    [|intros _|intros e w; apply Hsame].
  { destruct (truthy (external_id g)).
    - eapply hoare_weaken;
        [apply (hoare_stays _ (fun d => d = d0)), stays_cancelGeneration
        | by intros w [? _] | done].
    - apply hoare_ret. by intros w [? _]. }
  apply hoare_bind with (mid := fun _ w => table_change (PostCancel id) d0 (db w));
    [|intros [e|]; by apply hoare_ret|done].
  apply (table_update _ _ (fun d => d = d0) (table_change (PostCancel id) d0)).
  - intros d ->. by left.
  - intros d t ->. rewrite (alter_stored d0 id g _ Hg). right.
    exists g, (apply_patch cancelled_patch t g). split; [done|]. split; [|done].
    split; [done|]. by exists t.
Qed.

Lemma delete_changes id d0 :
  hoare (fun w => db w = d0) (delete_generation id)
    (fun _ w => table_change (Delete id) d0 (db w)).
Proof.
  unfold delete_generation.
  assert (forall w : world (P := P), db w = d0 -> table_change (Delete id) d0 (db w))
    as Hsame by (intros w ->; by left).
  apply hoare_try_catch
    with (mid := fun _ w => table_change (Delete id) d0 (db w));
    [|done|intros e; by apply hoare_ret].
  eapply hoare_bind;
    [apply (table_single _ (fun d => d = d0))| |intros e w [? _]; by apply Hsame].
  intros [e|g]; [apply hoare_ret; intros w [? _]; by apply Hsame|].
  apply hoare_exploit with (Q := d0 !! id = Some g).
  { intros w [Hdb Hg]. rewrite <- Hdb. by apply Hg. }
  intros Hg.
  eapply hoare_bind.
  - eapply hoare_weaken;
      [apply (table_delete id (fun d => d = d0) (table_change (Delete id) d0))
      | by intros w [? _] | intros o w H; exact H].
    intros d ->. right. by split; [eexists|].
  - intros [e|]; apply hoare_ret; [intros w; apply Hsame | done].
  - intros e w; apply Hsame.
Qed.

Lemma handle_changes q w : table_change q (db w) (db (handle replicate q w).1).
Proof.
  destruct q as [b|id|query|id|id]; simpl.
  - exact (generate_changes b (db w) w eq_refl).
  - exact (get_status_changes id (db w) w eq_refl).
  - left. by destruct (list_effect w query) as [_ ->].
  - exact (cancel_changes id (db w) w eq_refl).
  - exact (delete_changes id (db w) w eq_refl).
Qed.

(** Whatever the provider answers and whichever statements of the store
    fail, a request leaves the table as it was or changes one row: a
    submission adds a row under an unused key, a poll completes or fails the
    processing row it names, a cancellation cancels the processing row it
    names, a deletion removes the row it names, a listing changes nothing. *)
Theorem request_changes_one_row q w :
  table_change q (db w) (table_after replicate q w).
Proof.
  unfold table_after. destruct q as [b|id|query|id|id]; simpl.
  - exact (generate_changes b (db w) w eq_refl).
  - exact (get_status_changes id (db w) w eq_refl).
  - left. by destruct (list_effect w query) as [_ ->].
  - exact (cancel_changes id (db w) w eq_refl).
  - exact (delete_changes id (db w) w eq_refl).
Qed.

Lemma same_submission_refl r : same_submission r r.
Proof. by repeat split. Qed.

Lemma same_submission_patch p t r : same_submission r (apply_patch p t r).
Proof. by repeat split. Qed.


(** ** What the stored rows look like *)

(** A property of rows that the three moves establish and keep holds of
    every row of the table after a request. *)
Lemma table_change_rows (good : string -> generation -> Prop) q d d' :
  (forall b key g, validateVideoGeneration b = [] -> born b key g -> good key g) ->
  (forall id r r', good id r -> polled r r' \/ cancelled r r' -> good id r') ->
  table_change q d d' ->
  (forall id r, d !! id = Some r -> good id r) ->
  forall id r, d' !! id = Some r -> good id r.
Proof.
  intros Hborn Hmove [-> | H] Hd; [done|].
  intros id r.
  destruct q as [b|id'|query|id'|id']; [| | done | |].
  - destruct H as (Hv & key & g & Hk & Hg & ->).
    intros [[-> ->] | [_ Hr]]%lookup_insert_Some; [by eapply Hborn | by apply Hd].
  - destruct H as (r0 & r' & Hr0 & Hp & ->).
    intros [[<- <-] | [_ Hr]]%lookup_insert_Some; [|by apply Hd].
    apply (Hmove id' r0); [by apply Hd | by left].
  - destruct H as (r0 & r' & Hr0 & Hp & ->).
    intros [[<- <-] | [_ Hr]]%lookup_insert_Some; [|by apply Hd].
    apply (Hmove id' r0); [by apply Hd | by right].
  - destruct H as (_ & ->). intros [_ Hr]%lookup_delete_Some. by apply Hd.
Qed.

Lemma reachable_rows (good : string -> generation -> Prop) w acc :
  (forall b key g, validateVideoGeneration b = [] -> born b key g -> good key g) ->
  (forall id r r', good id r -> polled r r' \/ cancelled r r' -> good id r') ->
  reachable replicate w acc ->
  forall id r, db w !! id = Some r -> good id r.
Proof.
  intros Hborn Hmove.
  induction 1 as [w Hw | w w' acc _ IH Hdb | w acc q _ IH].
  - intros id r. by rewrite Hw, lookup_empty.
  - by rewrite Hdb.
  - by apply (table_change_rows good q (db w) _ Hborn Hmove (handle_changes q w)).
Qed.



(** ** From the submission to the result *)


End Properties.

(** * The properties on the scripted provider *)


Lemma accepted_submission_witness :
  exists w' row,
    generate scripted sample_body (sample_world ∅ (accepting [])) =
      (w', Ok {| code := 201; json := GenerationStarted "job-1" PROCESSING |})
    /\ db w' = <[ "job-1" := row ]> ∅
    /\ status row = PROCESSING
    /\ external_id row = Some "p-1"
    /\ duration row = 10 /\ aspect_ratio row = "9:16" /\ resolution row = "1080p".
Proof.
  destruct (accepted_submission scripted (sample_world ∅ (accepting [])) sample_body
              (accepting []) (starting "p-1"))
    as (w' & row & Hrun & Hdb & _ & Hs & He & Hd & Ha & Hr & _);
    [reflexivity..|].
  exists w', row. repeat split; assumption.
Defined.

Lemma rejected_submission_witness :
  exists w' row,
    generate scripted sample_body (sample_world ∅ rejecting) =
      (w', Ok {| code := 500;
                 json := ErrorBody "Failed to start video generation"
                           (Some "Request to https://api.replicate.com/v1/predictions failed with status 402") |})
    /\ db w' !! "job-1" = Some row
    /\ status row = FAILED
    /\ (exists m, error_message row = Some m /\ m <> "")
    /\ external_id row = None.
Proof.
  destruct (rejected_submission scripted (sample_world ∅ rejecting) sample_body rejecting
              "Request to https://api.replicate.com/v1/predictions failed with status 402")
    as (w' & row & Hrun & Hdb & _ & _ & Hs & (m & Hm & Hne & _) & He & _);
    [reflexivity.. | discriminate |].
  exists w', row. repeat split; try assumption. by exists m.
Defined.





Lemma provider_error_is_swallowed_witness :
  exists w',
    get_status scripted "j" (sample_world processing_job (accepting [])) =
      (w', Ok {| code := 200;
                 json := StatusBody (view_of (sample_row "j" PROCESSING (Some "p-1") 3)) |})
    /\ db w' = processing_job.
Proof.
  apply (provider_error_is_swallowed scripted
           (sample_world processing_job (accepting [])) "j"
           (sample_row "j" PROCESSING (Some "p-1") 3) "p-1" "fetch failed");
    try reflexivity; discriminate.
Defined.

Lemma cancel_contract_witness :
  cancel scripted "nobody" (sample_world processing_job rejecting) =
    (sample_world processing_job rejecting,
     Ok {| code := 404; json := ErrorBody "Video generation not found" None |})
  /\ cancel scripted "j"
       (sample_world {[ "j" := sample_row "j" FAILED None 3 ]} rejecting) =
       (sample_world {[ "j" := sample_row "j" FAILED None 3 ]} rejecting,
        Ok {| code := 400;
              json := ErrorBody "Can only cancel processing generations" None |})
  /\ exists w',
       cancel scripted "j" (sample_world processing_job rejecting) =
         (w', Ok {| code := 200; json := CancelledBody "j" CANCELLED |})
       /\ db w' =
            <[ "j" := apply_patch cancelled_patch 7
                        (sample_row "j" PROCESSING (Some "p-1") 3) ]> processing_job.
Proof.
  split; [|split].
  - apply (cancel_contract scripted (sample_world processing_job rejecting) "nobody");
      reflexivity.
  - apply (cancel_contract scripted
             (sample_world {[ "j" := sample_row "j" FAILED None 3 ]} rejecting) "j"
             eq_refl) with (r := sample_row "j" FAILED None 3);
      [reflexivity | discriminate].
  - destruct (cancel_contract scripted (sample_world processing_job rejecting) "j" eq_refl)
      as (_ & _ & H).
    destruct (H (sample_row "j" PROCESSING (Some "p-1") 3) eq_refl eq_refl)
      as (w' & Hrun & Hdb & _).
    by exists w'.
Defined.

Lemma delete_removes_row_witness :
  exists w',
    delete_generation "j" (sample_world processing_job (accepting [])) =
      (w', Ok {| code := 200; json := DeletedBody "j" |})
    /\ db w' !! "j" = None
    /\ calls w' = [].
Proof.
  destruct (delete_removes_row (sample_world processing_job (accepting [])) "j"
              (sample_row "j" PROCESSING (Some "p-1") 3) eq_refl eq_refl)
    as (w' & Hrun & _ & Hgone & Hcalls & _).
  by exists w'.
Defined.

Lemma external_id_iff_accepted_witness :
  let w0 := sample_world ∅ (accepting []) in
  let w1 := (handle scripted (PostGenerate sample_body) w0).1 in
  let acc := accepted_after (handle scripted (PostGenerate sample_body) w0).2 ∅ in
  (exists r, db w1 !! "job-1" = Some r /\ status r = PROCESSING)
  /\ forall id r, db w1 !! id = Some r ->
       (status r = PENDING -> external_id r = None)
       /\ (is_Some (external_id r) <-> status r <> PENDING /\ id ∈ acc).
Proof.
  intros w0 w1 acc. split; [by eexists|].
  apply (external_id_iff_accepted scripted w1 acc).
  apply reach_request, reach_empty. reflexivity.
Defined.

(** C9 at GET /list?page=2&limit=5 over twelve jobs: the query values
    are strings, so [offset + limit - 1] is "55" - 1 = 54 and the range is
    5 to 54: the response carries the seven rows from position 5 to the end of
    the table, not the five rows at positions 5 to 9, next to a pagination
    that reports page 2, limit 5, 12 rows and 3 pages. *)
Theorem second_page_overruns :
  let w := sample_world twelve_rows (accepting []) in
  let q := {| q_page := Some "2"; q_limit := Some "5" |} in
  exists gens pages,
    response_of scripted (GetList q) w =
      Ok {| code := 200; json := ListBody gens pages |}
    /\ gens = slice 5 54 (rows_newest_first twelve_rows)
    /\ created_at <$> gens = [6; 5; 4; 3; 2; 1; 0]%nat
    /\ created_at <$> slice 5 9 (rows_newest_first twelve_rows) = [6; 5; 4; 3; 2]%nat
    /\ pages = {| pg_page := Some 2; pg_limit := Some 5; pg_total := 12;
                  pg_pages := Some 3 |}.
Proof.
  intros w q. eexists _, _. split; [vm_compute; reflexivity|].
  repeat split; vm_compute; reflexivity.
Qed.

(** * The further properties on the scripted provider *)

Lemma failed_poll_witness :
  exists w' row view,
    get_status scripted "j"
      (sample_world processing_job
         (accepting [inr (failed_prediction "p-1" "NSFW content detected")])) =
      (w', Ok {| code := 200; json := StatusBody view |})
    /\ db w' = <[ "j" := row ]> processing_job
    /\ status row = FAILED
    /\ error_message row = Some "NSFW content detected"
    /\ sv_status view = FAILED
    /\ sv_error_message view = None.
Proof.
  destruct (failed_poll scripted
              (sample_world processing_job
                 (accepting [inr (failed_prediction "p-1" "NSFW content detected")]))
              "j" (sample_row "j" PROCESSING (Some "p-1") 3) "p-1"
              (accepting []) (failed_prediction "p-1" "NSFW content detected"))
    as (w' & row & view & Hrun & Hdb & Hs & He & _ & _ & Hvs & Hve & _);
    try reflexivity; try discriminate.
  exists w', row, view. repeat split; assumption.
Defined.

Lemma poll_in_flight_witness :
  let w := sample_world processing_job (accepting [inr (starting "p-1")]) in
  get_status scripted "j" w =
    (with_call (accepting []) (PredictionsGet "p-1") w,
     Ok {| code := 200;
           json := StatusBody (view_of (sample_row "j" PROCESSING (Some "p-1") 3)) |}).
Proof.
  intros w.
  apply (poll_in_flight scripted w "j" (sample_row "j" PROCESSING (Some "p-1") 3) "p-1"
           (accepting []) (starting "p-1"));
    try reflexivity; discriminate.
Defined.

Lemma unknown_job_is_not_found_witness :
  let w := sample_world processing_job (accepting []) in
  response_of scripted (Delete "k") w =
    Ok {| code := 404; json := ErrorBody "Video generation not found" None |}
  /\ table_after scripted (Delete "k") w = processing_job.
Proof.
  intros w.
  destruct (unknown_job_is_not_found scripted w "k" eq_refl (Delete "k"))
    as (Hanswer & Htable & _); [by right; right|].
  by split.
Defined.

Lemma submission_is_settled_witness :
  exists w' row answer,
    generate scripted sample_body (sample_world ∅ rejecting) = (w', Ok answer)
    /\ db w' !! "job-1" = Some row
    /\ ((code answer = 201 /\ status row = PROCESSING /\ is_Some (external_id row)
         /\ error_message row = None)
        \/ (code answer = 500 /\ status row = FAILED /\ external_id row = None
            /\ is_Some (error_message row))).
Proof.
  exact (submission_is_settled scripted (sample_world ∅ rejecting) sample_body
           eq_refl eq_refl eq_refl).
Defined.

Lemma submission_without_token_witness :
  exists w' row,
    generate scripted sample_body (tokenless_world ∅ (accepting [])) =
      (w', Ok {| code := 500;
                 json := ErrorBody "Failed to start video generation"
                           (Some "REPLICATE_API_TOKEN environment variable is required") |})
    /\ db w' !! "job-1" = Some row
    /\ status row = FAILED
    /\ calls w' = [].
Proof.
  destruct (submission_without_token scripted (tokenless_world ∅ (accepting []))
              sample_body)
    as (w' & row & Hrun & Hrow & Hs & _ & Hcalls & _); try reflexivity.
  by exists w', row.
Defined.

Lemma cancel_reaches_provider_witness :
  let w := sample_world processing_job (accepting []) in
  exists w',
    cancel scripted "j" w =
      (w', Ok {| code := 200; json := CancelledBody "j" CANCELLED |})
    /\ calls w' = [PredictionsCancel "p-1"].
Proof.
  intros w.
  destruct (cancel_reaches_provider scripted w "j"
              (sample_row "j" PROCESSING (Some "p-1") 3) "p-1")
    as (w' & Hrun & Hcalls & _); try reflexivity; try discriminate.
  by exists w'.
Defined.

Lemma cancel_stays_local_witness :
  let r := sample_row "j" PROCESSING (Some "p-1") 3 in
  let w := tokenless_world processing_job (accepting []) in
  cancel scripted "j" w =
    (with_db (<[ "j" := apply_patch cancelled_patch 7 r ]> processing_job) w,
     Ok {| code := 200; json := CancelledBody "j" CANCELLED |}).
Proof.
  intros r w.
  apply (cancel_stays_local scripted w "j" r); try reflexivity. by right.
Defined.



Lemma listing_is_newest_first_witness :
  let w := sample_world twelve_rows (accepting []) in
  let gens := [sample_row (sample_uuid 11) COMPLETED (Some "p") 11;
               sample_row (sample_uuid 10) COMPLETED (Some "p") 10] in
  let pages := {| pg_page := Some 1; pg_limit := Some 2; pg_total := 12;
                  pg_pages := Some 6 |} in
  (list_generations {| q_page := None; q_limit := Some "2" |} w).2
  = Ok {| code := 200; json := ListBody gens pages |}
  /\ StronglySorted newer_or_same gens
  /\ (forall g, g ∈ gens -> exists id, twelve_rows !! id = Some g).
Proof.
  intros w gens pages.
  assert ((list_generations {| q_page := None; q_limit := Some "2" |} w).2
          = Ok {| code := 200; json := ListBody gens pages |}) as Hrun
    by (vm_compute; reflexivity).
  split; [exact Hrun|].
  destruct (listing_is_newest_first w _ 200 gens pages Hrun) as (_ & Hsorted & Hin & _).
  by split.
Defined.


Lemma getGeneratedVideo_answers_witness :
  let w := sample_world processing_job
             (accepting [inr (succeeded "p-1" "https://x/video.mp4")]) in
  (getGeneratedVideo scripted "p-1" w).2 = Ok "https://x/video.mp4"
  /\ db (getGeneratedVideo scripted "p-1" w).1 = processing_job.
Proof.
  intros w.
  destruct (getGeneratedVideo_answers scripted w "p-1" eq_refl) as [Hdb Hrun].
  split; [exact Hrun | exact Hdb].
Defined.




